(** * Symbolic reasoning toolkit: resolution, Horn abduction, FOIL induction

    Shallow embedding of the Python modules [PropDeduction.py],
    [PropHornClauseAbduction.py], [PropInductionwCostMin.py] and
    [PropInduction.py].

    Python [str] is [string]; [frozenset]/[set] of strings is [gset string];
    a [set] of clauses is [gset (gset string)]; Python lists are lists.
    Python iterates a set in an order fixed by its hash table. In
    [resolve], [resolution_entails] and [total_cost] the model iterates
    over [elements] and the theorems only speak of membership, which no
    order changes; in [learn_rules], where the order breaks ties between
    candidate predicates, and in [abduce_min_cost], where float sums
    depend on the order of the summands, the order is a parameter
    ([SetOrder]). Costs are IEEE binary64 floats ([PrimFloat.float]). *)

From Stdlib Require Import Ascii String QArith Qcanon.
From Stdlib Require Floats.
From stdpp Require Import base option list numbers strings gmap sets fin_sets.

#[local] Set Warnings "-clear-no-such-hyp".
Local Open Scope string_scope.
Local Open Scope list_scope.
Local Open Scope nat_scope.

(** ** Python results

    A call returns a value, raises an exception, or (in the model only)
    exhausts the bound put on its loops. *)

Module Py.

Inductive exn := ValueError | ZeroDivisionError.

Inductive outcome (A : Type) :=
| Return (a : A)
| Raise (e : exn)
| OutOfFuel.
Arguments Return {A} a.
Arguments Raise {A} e.
Arguments OutOfFuel {A}.

Definition bind {A B : Type} (m : outcome A) (k : A → outcome B) : outcome B :=
  match m with
  | Return a => k a
  | Raise e => Raise e
  | OutOfFuel => OutOfFuel
  end.

#[global] Instance outcome_ret : MRet outcome := @Return.
#[global] Instance outcome_bind : MBind outcome := λ A B k m, bind m k.

End Py.

(** ** PropDeduction.py *)

Module Deduction.

Abbreviation Literal := string (only parsing).
Abbreviation Clause := (gset string) (only parsing).

(** [s.startswith(c)] for a one-character prefix [c]. *)
Definition startswith (s : string) (c : ascii) : bool :=
  match s with
  | String a _ => bool_decide (a = c)
  | EmptyString => false
  end.

(** The slice [s[1:]]. *)
Definition slice_from_1 (s : string) : string :=
  match s with
  | String _ rest => rest
  | EmptyString => EmptyString
  end.

(** [literal[1:] if literal.startswith('~') else '~' + literal] *)
Definition negate (literal : Literal) : Literal :=
  if startswith literal "~"%char then slice_from_1 literal
  else String "~"%char literal.

(** A literal is in canonical form when it carries at most one negation
    marker, that is, when it does not start with two of them. *)
Definition canonical (l : Literal) : bool :=
  negb (startswith l "~"%char && startswith (slice_from_1 l) "~"%char).

(** A clause holds no literal together with its complement. *)
Definition complement_free (c : Clause) : Prop :=
  ∀ l, l ∈ c → negate l ∉ c.

(** [r] is the union of [ci] and [cj] minus one complementary pair, the
    literal taken from [ci] and its negation from [cj]. *)
Definition resolvent_on (l : Literal) (ci cj r : Clause) : Prop :=
  l ∈ ci ∧ negate l ∈ cj ∧ r = (ci ∪ cj) ∖ {[l; negate l]}.

(** The loop of [resolve]: one resolvent for every [l] of [ci] whose
    negation is in [cj], appended in iteration order. *)
Fixpoint resolve_loop (ci cj : Clause) (ls : list Literal) : list Clause :=
  match ls with
  | [] => []
  | l :: ls' =>
      let nl := negate l in
      if decide (nl ∈ cj)
      then ((ci ∪ cj) ∖ {[l; nl]}) :: resolve_loop ci cj ls'
      else resolve_loop ci cj ls'
  end.

Definition resolve (ci cj : Clause) : list Clause :=
  resolve_loop ci cj (elements ci).

(** [pairs = [(ci, cj) for ci in clauses for cj in clauses if ci != cj]] *)
Definition pairs (clauses : gset Clause) : list (Clause * Clause) :=
  ci ← elements clauses;
  cj ← elements clauses;
  if decide (ci ≠ cj) then [(ci, cj)] else [].

(** All resolvents of one round, in the order the loops produce them. *)
Definition round_resolvents (ps : list (Clause * Clause))
  : list Clause :=
  p ← ps; resolve p.1 p.2.

(** The body of [for resolvent in resolve(ci, cj)]: [None] stands for the
    [return True] taken when a resolvent has length zero, otherwise the
    resolvent is added to [new]. *)
Fixpoint add_resolvents (rs : list Clause) (new : gset Clause)
  : option (gset Clause) :=
  match rs with
  | [] => Some new
  | resolvent :: rs' =>
      if decide (size resolvent = 0) then None
      else add_resolvents rs' ({[resolvent]} ∪ new)
  end.

(** The [for (ci, cj) in pairs] loop, with the same early exit. *)
Fixpoint resolve_pairs (ps : list (Clause * Clause)) (new : gset Clause)
  : option (gset Clause) :=
  match ps with
  | [] => Some new
  | (ci, cj) :: ps' =>
      match add_resolvents (resolve ci cj) new with
      | None => None
      | Some new' => resolve_pairs ps' new'
      end
  end.

(** The [while True] loop; [fuel] bounds the number of rounds and the
    result is [None] when it runs out. [new] is created once before the
    loop and is carried from round to round. *)
Fixpoint resolution_loop (fuel : nat) (clauses new : gset Clause)
  : option bool :=
  match fuel with
  | O => None
  | S fuel' =>
      match resolve_pairs (pairs clauses) new with
      | None => Some true
      | Some new' =>
          if decide (new' ⊆ clauses) then Some false
          else resolution_loop fuel' (clauses ∪ new') new'
      end
  end.

Definition resolution_entails (fuel : nat) (kb : gset Clause)
    (query : Literal) : option bool :=
  let negated_query : Clause := {[ negate query ]} in
  let clauses := kb ∪ {[ negated_query ]} in
  resolution_loop fuel clauses ∅.

(** Truth of a literal under a valuation of the atoms: each leading
    negation marker flips the value of what follows it. *)
Fixpoint literal_true (v : string → bool) (l : Literal) : bool :=
  match l with
  | String a rest =>
      if bool_decide (a = "~"%char) then negb (literal_true v rest) else v l
  | EmptyString => v l
  end.

(** A clause is the disjunction of its literals. *)
Definition clause_true (v : string → bool) (c : Clause) : Prop :=
  ∃ l, l ∈ c ∧ literal_true v l = true.

(** All literals that occur in a set of clauses. *)
Definition literals (clauses : gset Clause) : gset string :=
  ⋃ (elements clauses).

(** Every set that can be formed from the members of [ls]. *)
Fixpoint subsets_of (ls : list string) : gset Clause :=
  match ls with
  | [] => {[ ∅ ]}
  | x :: ls' => subsets_of ls' ∪ set_map (λ c : Clause, {[x]} ∪ c) (subsets_of ls')
  end.

(** A number of rounds within which the saturation loop of
    [resolution_entails] answers: one more than the number of clauses that
    can be written with the literals of the initial clause set. *)
Definition rounds_bound (kb : gset Clause) (query : Literal) : nat :=
  S (size (subsets_of (elements (literals (kb ∪ {[ {[ negate query ]} ]}))))).

(** The knowledge base of the module's example block:
    (A ∨ B), (¬A ∨ C), (¬B ∨ C), (¬C ∨ D). *)
Definition example_kb : gset Clause :=
  {[ {["A"; "B"]}; {["~A"; "C"]}; {["~B"; "C"]}; {["~C"; "D"]} ]}.

End Deduction.

(** ** PropHornClauseAbduction.py and PropInductionwCostMin.py

    The two files carry the same text of [HornClause], [abduce] and
    [abduce_min_cost] ([PropHornClauseAbduction.py] twice). In
    [PropHornClauseAbduction.py] the import lines stand inside string
    literals, so the names used in the annotations are unbound there; the
    model follows the text of the functions, which is the one that runs
    in [PropInductionwCostMin.py]. *)

Module Abduction.

(** [class HornClause]: [head :- body1, body2, ...]. *)
Record HornClause := mkHornClause { head : string; body : list string }.

Abbreviation Explanation := (gset string) (only parsing).

(** [itertools.product] applied to the unpacked [lists]: the leftmost
    list varies slowest and the product of no list is the single empty
    combination. *)
Fixpoint product {A : Type} (lists : list (list A)) : list (list A) :=
  match lists with
  | [] => [[]]
  | xs :: rest => x ← xs; combo ← product rest; [x :: combo]
  end.

(** [set().union] applied to the unpacked [combo]. *)
Definition merge (combo : list Explanation) : Explanation := ⋃ combo.

(** Step 3 of [abduce]: keep [e] when no member of [explanations] is a
    strict subset of it ([other < e] on Python sets). *)
Definition prune (explanations : list Explanation) : list Explanation :=
  filter (λ e, ¬ Exists (λ other, other ⊂ e) explanations) explanations.

(** The [for clause in kb] loop. [rec] is the recursive call
    [abduce(b, kb, abducibles, seen)] on a body atom; it answers [None]
    when the recursion bound is exhausted. *)
Fixpoint derive (rec : string → option (list Explanation)) (goal : string)
    (clauses : list HornClause) (explanations : list Explanation)
  : option (list Explanation) :=
  match clauses with
  | [] => Some explanations
  | clause :: rest =>
      if decide (head clause = goal) then
        sub_expls ← mapM rec (body clause);
        if decide (Exists (λ exs, length exs = 0) sub_expls)
        then derive rec goal rest explanations
        else derive rec goal rest
               (explanations ++ (merge <$> product sub_expls))
      else derive rec goal rest explanations
  end.

(** [abduce(goal, kb, abducibles, seen)]; the default [seen=None] is the
    empty set. [fuel] bounds the recursion depth and the result is [None]
    when it runs out. *)
Fixpoint abduce (fuel : nat) (goal : string) (kb : list HornClause)
    (abducibles seen : gset string) : option (list Explanation) :=
  match fuel with
  | O => None
  | S fuel' =>
      if decide (goal ∈ seen) then Some []
      else
        let seen' := seen ∪ {[goal]} in
        let explanations :=
          if decide (goal ∈ abducibles) then [{[goal]}] else [] in
        explanations' ←
          derive (λ b, abduce fuel' b kb abducibles seen') goal kb explanations;
        Some (prune explanations')
  end.

(** Atoms that occur in some clause body: the only goals a recursive call
    can be made on. *)
Definition body_atoms (kb : list HornClause) : gset string :=
  ⋃ ((λ clause, list_to_set (body clause)) <$> kb).

(** A recursion depth that [abduce] cannot exceed on [kb]. *)
Definition depth_bound (kb : list HornClause) : nat :=
  2 + size (body_atoms kb).

(** Forward chaining: [atom] follows from the atoms [assumed] and the
    clauses of [kb] by a derivation of at most [depth] nested clause
    applications. *)
Fixpoint derivable (depth : nat) (kb : list HornClause)
    (assumed : gset string) (atom : string) : Prop :=
  atom ∈ assumed ∨
  match depth with
  | O => False
  | S depth' =>
      ∃ clause, clause ∈ kb ∧ head clause = atom ∧
                Forall (derivable depth' kb assumed) (body clause)
  end.

(** The knowledge base of the example block:
    r :- p, q.   r :- s.   p :- t.   q. *)
Definition example_kb : list HornClause :=
  [ mkHornClause "r" ["p"; "q"];
    mkHornClause "r" ["s"];
    mkHornClause "p" ["t"];
    mkHornClause "q" [] ].

Definition example_abducibles : gset string := {["s"; "t"]}.

End Abduction.

(** ** PropInduction.py *)

Module Induction.
Import Py.

(** The float operations [foil_gain] and [learn_rules] use on values of
    [math.log2]. The quotient of two list lengths is kept as the exact
    rational: rounding it to a float does not change whether it is
    positive, and [f_log2] stands for [math.log2] on a positive
    argument. *)
Class FloatOps (F : Type) := {
  f_zero : F;                      (* 0.0 *)
  f_log2 : Qc → F;                 (* math.log2, argument positive *)
  f_sub : F → F → F;               (* x - y *)
  f_mul_int : nat → F → F;         (* p1 * x *)
  f_gt : F → F → bool;             (* x > y *)
}.

(** The iteration order of a set of strings: some enumeration of its
    members, each once, chosen by the interpreter. *)
Class SetOrder := {
  iter : gset string → list string;
  iter_elem : ∀ (s : gset string) (x : string), x ∈ iter s ↔ x ∈ s;
  iter_NoDup : ∀ s : gset string, NoDup (iter s);
}.

(** The enumeration [elements] is one such order. *)
#[global] Instance elements_order : SetOrder :=
  {| iter := elements;
     iter_elem := λ s x, elem_of_elements s x;
     iter_NoDup := λ s, NoDup_elements s |}.

Abbreviation Example := (string * string)%type (only parsing).
Abbreviation Literal := (string * string)%type (only parsing).
Abbreviation Rule := (string * string * list (string * string))%type
  (only parsing).

(** True division [a / b] of two nonnegative ints. *)
Definition truediv (a b : nat) : outcome Qc :=
  if decide (b = 0) then Raise ZeroDivisionError
  else Return (Qc_of_Z (Z.of_nat a) / Qc_of_Z (Z.of_nat b))%Qc.

Section with_floats.
Context {F : Type} `{!FloatOps F}.

(** [math.log2(x)]: a domain error unless [x] is positive. *)
Definition math_log2 (x : Qc) : outcome F :=
  if decide (0 < x)%Qc then Return (f_log2 x) else Raise ValueError.

(** [foil_gain(p, n, p1, n1)] *)
Definition foil_gain (p n p1 n1 : nat) : outcome F :=
  if decide (p = 0 ∨ p1 + n1 = 0) then Return f_zero
  else
    ratio1 ← truediv p1 (p1 + n1);
    log1 ← math_log2 ratio1;
    ratio ← truediv p (p + n);
    log0 ← math_log2 ratio;
    Return (f_mul_int p1 (f_sub log1 log0)).

(** The four [best_...] variables of the literal-selection loop. *)
Record Best := mkBest {
  best_gain : F;
  best_literal : option Literal;
  best_pos_cover : list Example;
  best_neg_cover : list Example;
}.

Section with_inputs.
Context `{!SetOrder}.
Variables (neg_examples : list Example) (background : gset Example)
          (predicates : gset string).

Definition var : string := "X".

(** [[e for e in cover if (pred, e[1]) in background]] *)
Definition still_covered (pred : string) (cover : list Example)
  : list Example :=
  filter (λ e, (pred, e.2) ∈ background) cover.

(** The [for pred in ...] loop over the candidate predicates. *)
Fixpoint select (candidates : list string)
    (pos_cover neg_cover : list Example) (best : Best) : outcome Best :=
  match candidates with
  | [] => Return best
  | pred :: candidates' =>
      let new_pos := still_covered pred pos_cover in
      let new_neg := still_covered pred neg_cover in
      gain ← foil_gain (length pos_cover) (length neg_cover)
                       (length new_pos) (length new_neg);
      if f_gt gain (best_gain best)
      then select candidates' pos_cover neg_cover
             (mkBest gain (Some (pred, var)) new_pos new_neg)
      else select candidates' pos_cover neg_cover best
  end.

(** The [while neg_cover] loop; it returns the finished body. *)
Fixpoint refine (fuel : nat) (body : list Literal)
    (pos_cover neg_cover : list Example) : outcome (list Literal) :=
  match fuel with
  | O => OutOfFuel
  | S fuel' =>
      if decide (neg_cover = []) then Return body
      else
        best ← select (iter (predicates ∖ list_to_set (body.*1)))
                      pos_cover neg_cover (mkBest f_zero None [] []);
        match best_literal best with
        | None => Return body
        | Some literal =>
            refine fuel' (body ++ [literal])
                   (best_pos_cover best) (best_neg_cover best)
        end
  end.

(** [e[0] == head_pred and all((pred, e[1]) in background
    for pred, _ in body)] *)
Definition rule_covers (head_pred : string) (body : list Literal)
    (e : Example) : Prop :=
  e.1 = head_pred ∧ Forall (λ lit : Literal, (lit.1, e.2) ∈ background) body.

(** The [while pos_examples] loop; [fuel] bounds the passes of this loop
    and of each inner [while neg_cover] loop. *)
Fixpoint learn_loop (fuel : nat) (rules : list Rule)
    (pos_examples : list Example) : outcome (list Rule) :=
  match fuel with
  | O => OutOfFuel
  | S fuel' =>
      match pos_examples with
      | [] => Return rules
      | first :: _ =>
          let head_pred := first.1 in
          let pos_cover := filter (λ e, e.1 = head_pred) pos_examples in
          let neg_cover := filter (λ e, e.1 = head_pred) neg_examples in
          body ← refine fuel [] pos_cover neg_cover;
          let covered := filter (rule_covers head_pred body) pos_examples in
          learn_loop fuel' (rules ++ [(head_pred, var, body)])
                     (filter (λ e, e ∉ covered) pos_examples)
      end
  end.
End with_inputs.

(** [learn_rules(pos, neg, background, predicates)] *)
Definition learn_rules `{!SetOrder} (fuel : nat) (pos neg : list Example)
    (background : gset Example) (predicates : gset string)
  : outcome (list Rule) :=
  learn_loop neg background predicates fuel [] pos.
End with_floats.

(** A well-formed rule body: literals on distinct predicates, all taken
    from [predicates], all on the variable X. *)
Definition body_ok (predicates : gset string) (body : list Literal) : Prop :=
  NoDup (body.*1) ∧ ∀ lit, lit ∈ body → lit.1 ∈ predicates ∧ lit.2 = "X".

(** The data of the example block. *)
Definition example_background : gset Example :=
  {[ ("Bird", "tweety"); ("Bird", "polly"); ("Bird", "tweety2");
     ("Mammal", "leo"); ("Mammal", "max") ]}.
Definition example_pos : list Example :=
  [("Fly", "tweety"); ("Fly", "polly"); ("Fly", "tweety2")].
Definition example_neg : list Example := [("Fly", "leo"); ("Fly", "max")].
Definition example_predicates : gset string := {["Bird"; "Mammal"]}.

End Induction.

(** ** The cost-minimising wrapper of PropInductionwCostMin.py *)

Module MinCost.
Import Py Abduction PrimFloat.

(** Costs are Python floats, that is IEEE binary64 numbers with their
    rounding, their infinities and NaN. *)
Abbreviation Cost := float (only parsing).

(** [cost.get(a, float('inf'))] *)
Definition cost_get (cost : gmap string Cost) (a : string) : Cost :=
  default infinity (cost !! a).

(** The builtin [sum]: it starts from 0 and adds the items from left to
    right, each addition rounded. *)
Definition py_sum (items : list Cost) : Cost :=
  foldl add zero items.

(** [sum(cost.get(a, float('inf')) for a in expl)]; the atoms come in the
    iteration order of the set [expl]. *)
Definition total_cost `{!Induction.SetOrder} (cost : gmap string Cost)
    (expl : Explanation) : Cost :=
  py_sum (cost_get cost <$> Induction.iter expl).

(** The builtin [min] over a sequence: the first item that no later item
    is [<] than, and [ValueError] on an empty sequence. *)
Fixpoint min_from (best : Cost) (items : list Cost) : Cost :=
  match items with
  | [] => best
  | x :: items' => min_from (if (x <? best)%float then x else best) items'
  end.

Definition py_min (items : list Cost) : outcome Cost :=
  match items with
  | [] => Raise ValueError
  | x :: items' => Return (min_from x items')
  end.

(** [abduce_min_cost(goal, kb, abducibles, cost)] *)
Definition abduce_min_cost `{!Induction.SetOrder} (fuel : nat) (goal : string)
    (kb : list HornClause) (abducibles : gset string) (cost : gmap string Cost)
  : outcome (list Explanation) :=
  match abduce fuel goal kb abducibles ∅ with
  | None => OutOfFuel
  | Some all_expls =>
      let scored := (λ expl, (total_cost cost expl, expl)) <$> all_expls in
      if decide (scored = []) then Return []
      else
        min_cost ← py_min (scored.*1);
        Return ((filter (λ se, (se.1 =? min_cost)%float = true) scored).*2)
  end.



(** The cost map of the example block and one with equal costs. *)
Definition example_cost : gmap string Cost := {[ "s" := 5%float; "t" := 1%float ]}.
Definition tie_cost : gmap string Cost := {[ "s" := 1%float; "t" := 1%float ]}.


End MinCost.

(** * Theorems *)

(** ** Clause algebra *)

Section negate_facts.
Import Deduction.

Lemma negate_plain (l : string) :
  startswith l "~"%char = false → negate l = String "~"%char l.
Proof. unfold negate. by intros ->. Qed.

Lemma negate_marked (rest : string) :
  negate (String "~"%char rest) = rest.
Proof. done. Qed.

Lemma startswith_true (l : string) :
  startswith l "~"%char = true → l = String "~"%char (slice_from_1 l).
Proof.
  destruct l as [|a rest]; simpl; [done|].
  by intros ->%bool_decide_eq_true.
Qed.

Lemma string_cons_cons_ne (a b : ascii) (s : string) :
  String a (String b s) ≠ s.
Proof.
  intros Heq. apply (f_equal String.length) in Heq. simpl in Heq. lia.
Qed.
End negate_facts.

Section resolve_facts.
Import Deduction.

Lemma elem_of_resolve_loop (ci cj r : gset string) (ls : list string) :
  r ∈ resolve_loop ci cj ls ↔
  ∃ l, l ∈ ls ∧ negate l ∈ cj ∧ r = (ci ∪ cj) ∖ {[l; negate l]}.
Proof.
  induction ls as [|l0 ls IH]; simpl.
  - split; [by intros ?%elem_of_nil | by intros (l & ?%elem_of_nil & _)].
  - case_decide as Hin.
    + rewrite elem_of_cons, IH. split.
      * intros [-> | (l & Hl & Hn & ->)].
        -- exists l0. by rewrite elem_of_cons; auto.
        -- exists l. by rewrite elem_of_cons; auto.
      * intros (l & [-> | Hl]%elem_of_cons & Hn & ->); [by left|].
        right. by exists l.
    + rewrite IH. split.
      * intros (l & Hl & Hn & ->). exists l. by rewrite elem_of_cons; auto.
      * intros (l & [-> | Hl]%elem_of_cons & Hn & ->); [done|].
        by exists l.
Qed.

Lemma elem_of_resolve (ci cj r : gset string) :
  r ∈ resolve ci cj ↔ ∃ l, resolvent_on l ci cj r.
Proof.
  unfold resolve, resolvent_on. rewrite elem_of_resolve_loop.
  by setoid_rewrite elem_of_elements.
Qed.

(** C9, as stated, fails on a literal that starts with two negation
    markers: the first call strips one marker, the second strips the
    other instead of putting the first back. *)
Lemma negate_involution_counterexample :
  negate (negate "~~A") = "A" ∧ negate (negate "~~A") ≠ "~~A".
Proof. split; [reflexivity | discriminate]. Qed.

(** C9 (amended): [negate (negate l) = l] holds exactly for the literals
    in canonical form, those that do not start with two negation
    markers. *)
Theorem negate_involution_iff_canonical (l : string) :
  negate (negate l) = l ↔ canonical l = true.
Proof.
  unfold canonical.
  destruct (startswith l "~"%char) eqn:Hl; simpl.
  - apply startswith_true in Hl. destruct l as [|a rest]; [done|].
    simpl in *. injection Hl as ->. rewrite negate_marked.
    destruct (startswith rest "~"%char) eqn:Hr; simpl.
    + apply startswith_true in Hr. destruct rest as [|b rest']; [done|].
      simpl in *. injection Hr as ->. rewrite negate_marked.
      split; [|done]. intros Heq. symmetry in Heq.
      by apply string_cons_cons_ne in Heq.
    + by rewrite (negate_plain rest Hr).
  - by rewrite (negate_plain l Hl), negate_marked.
Qed.

(** C1, as stated, fails: resolving {A, B} with {~A, ~B} on A leaves the
    resolvent {B, ~B}, which holds B together with its complement. *)
Lemma resolve_complement_free_counterexample :
  ¬ (∀ r, r ∈ resolve {["A"; "B"]} {["~A"; "~B"]} →
          complement_free r ∧ ∃ l, resolvent_on l {["A"; "B"]} {["~A"; "~B"]} r).
Proof.
  intros Hall.
  destruct (Hall {["B"; "~B"]}) as [Hfree _].
  - apply elem_of_resolve. exists "A". unfold resolvent_on.
    split; [set_solver|]. split; [set_solver|].
    apply set_eq. intros x. change (negate "A") with "~A". set_solver.
  - apply (Hfree "B"); set_solver.
Qed.

(** C1 (amended): every resolvent returned by [resolve ci cj] is the union
    of [ci] and [cj] minus one complementary pair [l], [negate l] with [l]
    in [ci] and [negate l] in [cj], and it contains neither literal of
    that pair. *)
Theorem resolve_sound (ci cj r : gset string) :
  r ∈ resolve ci cj →
  ∃ l, resolvent_on l ci cj r ∧ (l ∉ r) ∧ (negate l ∉ r).
Proof.
  intros (l & Hl & Hn & ->)%elem_of_resolve. exists l.
  split; [done|]. set_solver.
Qed.

Lemma resolve_sound_witness :
  {["B"; "C"]} ∈ resolve {["A"; "B"]} {["~A"; "C"]} ∧
  ∃ l, resolvent_on l {["A"; "B"]} {["~A"; "C"]} {["B"; "C"]}
       ∧ (l ∉ ({["B"; "C"]} : gset string))
       ∧ (negate l ∉ ({["B"; "C"]} : gset string)).
Proof.
  assert (Hin : {["B"; "C"]} ∈ resolve {["A"; "B"]} {["~A"; "C"]})
    by (vm_compute; left).
  split; [exact Hin|].
  exact (resolve_sound {["A"; "B"]} {["~A"; "C"]} {["B"; "C"]} Hin).
Defined.
End resolve_facts.

(** ** Resolution entailment *)

Section resolution_facts.
Import Deduction.

Lemma add_resolvents_None (rs : list (gset string)) (new : gset (gset string)) :
  add_resolvents rs new = None ↔ ∅ ∈ rs.
Proof.
  revert new. induction rs as [|r rs IH]; intros new; simpl.
  - split; [done | by intros ?%elem_of_nil].
  - rewrite elem_of_cons. case_decide as Hsz.
    + apply size_empty_iff, leibniz_equiv in Hsz. subst r. by intuition.
    + rewrite IH. split; [by auto|]. intros [<- | ?]; [|done].
      by rewrite size_empty in Hsz.
Qed.

Lemma add_resolvents_Some (rs : list (gset string)) (new new' : gset (gset string)) :
  add_resolvents rs new = Some new' → new' = list_to_set rs ∪ new.
Proof.
  revert new. induction rs as [|r rs IH]; intros new; simpl.
  - intros [= <-]. set_solver.
  - case_decide; [done|]. intros ->%IH. set_solver.
Qed.

Lemma resolve_pairs_None ps (new : gset (gset string)) :
  resolve_pairs ps new = None ↔ ∅ ∈ round_resolvents ps.
Proof.
  revert new. induction ps as [|[ci cj] ps IH]; intros new; simpl.
  - split; [done | by intros ?%elem_of_nil].
  - unfold round_resolvents. simpl. rewrite elem_of_app.
    destruct (add_resolvents (resolve ci cj) new) as [new'|] eqn:Hadd.
    + rewrite IH. split; [by auto|]. intros [Hin | ?]; [|done].
      apply (add_resolvents_None _ new) in Hin. congruence.
    + apply add_resolvents_None in Hadd. by intuition.
Qed.

Lemma resolve_pairs_Some ps (new new' : gset (gset string)) :
  resolve_pairs ps new = Some new' →
  new' = list_to_set (round_resolvents ps) ∪ new.
Proof.
  revert new. induction ps as [|[ci cj] ps IH]; intros new; simpl.
  - intros [= <-]. set_solver.
  - destruct (add_resolvents (resolve ci cj) new) as [new1|] eqn:Hadd; [|done].
    apply add_resolvents_Some in Hadd. subst new1. intros ->%IH.
    unfold round_resolvents. simpl. rewrite list_to_set_app_L. set_solver.
Qed.

Lemma elem_of_pairs (clauses : gset (gset string)) ci cj :
  (ci, cj) ∈ pairs clauses ↔ ci ∈ clauses ∧ cj ∈ clauses ∧ ci ≠ cj.
Proof.
  unfold pairs. rewrite list_elem_of_bind. split.
  - intros (ci' & (cj' & Hin & Hcj)%list_elem_of_bind & Hci).
    apply elem_of_elements in Hci, Hcj. case_decide; [|by apply elem_of_nil in Hin].
    apply list_elem_of_singleton in Hin. by simplify_eq.
  - intros (Hci & Hcj & Hne). exists ci. rewrite elem_of_elements.
    split; [|done]. apply list_elem_of_bind. exists cj.
    rewrite elem_of_elements. split; [|done].
    rewrite decide_True by done. by apply list_elem_of_singleton.
Qed.

Lemma elem_of_round (clauses : gset (gset string)) r :
  r ∈ round_resolvents (pairs clauses) ↔
  ∃ ci cj, ci ∈ clauses ∧ cj ∈ clauses ∧ ci ≠ cj ∧ r ∈ resolve ci cj.
Proof.
  unfold round_resolvents. rewrite list_elem_of_bind. split.
  - intros ([ci cj] & Hr & Hp). apply elem_of_pairs in Hp. naive_solver.
  - intros (ci & cj & ? & ? & ? & ?). exists (ci, cj).
    split; [done|]. by apply elem_of_pairs.
Qed.

Lemma round_mono (c1 c2 : gset (gset string)) r :
  c1 ⊆ c2 →
  r ∈ round_resolvents (pairs c1) → r ∈ round_resolvents (pairs c2).
Proof.
  intros Hsub. rewrite !elem_of_round.
  intros (ci & cj & Hi & Hj & Hne & Hr). exists ci, cj. auto.
Qed.

(** One round of the [while] loop, read off the set of its resolvents. *)
Lemma resolution_loop_step (fuel : nat) (clauses new : gset (gset string)) :
  resolution_loop (S fuel) clauses new =
    if decide (∅ ∈ round_resolvents (pairs clauses)) then Some true
    else
      let new' := list_to_set (round_resolvents (pairs clauses)) ∪ new in
      if decide (new' ⊆ clauses) then Some false
      else resolution_loop fuel (clauses ∪ new') new'.
Proof.
  simpl. destruct (decide (∅ ∈ round_resolvents (pairs clauses))) as [Hin|Hnin].
  - by apply (resolve_pairs_None _ new) in Hin as ->.
  - destruct (resolve_pairs (pairs clauses) new) as [new'|] eqn:Hrp.
    + by apply resolve_pairs_Some in Hrp as ->.
    + by apply resolve_pairs_None in Hrp.
Qed.

(** A result reached with some fuel is reached with any larger fuel. *)
Lemma resolution_loop_fuel_mono (fuel extra : nat) clauses new (b : bool) :
  resolution_loop fuel clauses new = Some b →
  resolution_loop (fuel + extra) clauses new = Some b.
Proof.
  revert clauses new. induction fuel as [|fuel IH]; intros clauses new; [done|].
  change (S fuel + extra) with (S (fuel + extra)).
  rewrite !resolution_loop_step. cbv zeta. repeat case_decide; auto.
Qed.

(** A clause set closed under the round (no empty resolvent, every
    resolvent already present) never lets a subset derive the empty
    clause. *)
Lemma closed_no_refutation (fuel : nat) (clauses new closed : gset (gset string)) :
  ∅ ∉ round_resolvents (pairs closed) →
  list_to_set (round_resolvents (pairs closed)) ⊆ closed →
  clauses ⊆ closed → new ⊆ closed →
  resolution_loop fuel clauses new ≠ Some true.
Proof.
  intros Hne Hcl. revert clauses new.
  induction fuel as [|fuel IH]; intros clauses new Hsub Hnew; [done|].
  rewrite resolution_loop_step.
  assert (Hres : ∀ r, r ∈ round_resolvents (pairs clauses) → r ∈ closed).
  { intros r Hr. apply Hcl. apply elem_of_list_to_set.
    exact (round_mono clauses closed r Hsub Hr). }
  case_decide as Hemp.
  { exfalso. apply Hne. exact (round_mono clauses closed ∅ Hsub Hemp). }
  simpl. case_decide; [done|]. apply IH; set_solver.
Qed.

Lemma resolution_loop_mono (fuel : nat) (c1 c2 n1 n2 : gset (gset string)) :
  c1 ⊆ c2 → n1 ⊆ n2 →
  resolution_loop fuel c1 n1 = Some true →
  resolution_loop fuel c2 n2 = Some true.
Proof.
  revert c1 c2 n1 n2.
  induction fuel as [|fuel IH]; intros c1 c2 n1 n2 Hc Hn; [done|].
  rewrite !resolution_loop_step.
  assert (Hres : ∀ r, r ∈ round_resolvents (pairs c1) →
                      r ∈ round_resolvents (pairs c2))
    by (intros r; exact (round_mono c1 c2 r Hc)).
  destruct (decide (∅ ∈ round_resolvents (pairs c2))) as [|Hemp2]; [done|].
  rewrite decide_False by (intros ?; by apply Hemp2, Hres).
  simpl. case_decide as Hsat1; [done|].
  case_decide as Hsat2.
  - intros Hloop. exfalso. revert Hloop.
    apply (closed_no_refutation _ _ _ c2); [done|set_solver..].
  - apply IH; set_solver.
Qed.

(** C5: adding clauses to the knowledge base keeps an entailed query
    entailed; the extended run answers true within the same number of
    rounds, and so under any larger bound. *)
Theorem resolution_entails_monotone (fuel extra : nat)
    (kb kb' : gset (gset string)) (query : string) :
  resolution_entails fuel kb query = Some true →
  resolution_entails (fuel + extra) (kb ∪ kb') query = Some true.
Proof.
  unfold resolution_entails. intros Hkb.
  apply resolution_loop_fuel_mono.
  revert Hkb. apply resolution_loop_mono; set_solver.
Qed.

Lemma resolution_entails_monotone_witness :
  resolution_entails 3 example_kb "D" = Some true ∧
  resolution_entails (3 + 0) (example_kb ∪ {[ {["~D"; "E"]}; {["A"]} ]}) "D"
    = Some true.
Proof.
  assert (H : resolution_entails 3 example_kb "D" = Some true)
    by (vm_compute; reflexivity).
  split; [exact H|].
  exact (resolution_entails_monotone 3 0 example_kb
           {[ {["~D"; "E"]}; {["A"]} ]} "D" H).
Defined.

(** C4: on the example knowledge base the query D is answered true and
    the query A is answered false, each in its third round, whatever
    larger bound is put on the number of rounds. *)
Theorem resolution_entails_example (extra : nat) :
  resolution_entails (3 + extra) example_kb "D" = Some true ∧
  resolution_entails (3 + extra) example_kb "A" = Some false.
Proof.
  unfold resolution_entails.
  split; apply resolution_loop_fuel_mono; vm_compute; reflexivity.
Qed.
End resolution_facts.

(** ** Horn abduction *)

Section abduce_facts.
Import Abduction.

Implicit Types (kb clauses : list HornClause) (goal : string).
Implicit Types (abducibles seen : gset string).
Implicit Types (rec : string → option (list (gset string))).

Lemma abduce_unfold (fuel : nat) goal kb abducibles seen :
  abduce (S fuel) goal kb abducibles seen =
    if decide (goal ∈ seen) then Some []
    else
      explanations' ←
        derive (λ b, abduce fuel b kb abducibles (seen ∪ {[goal]})) goal kb
          (if decide (goal ∈ abducibles) then [{[goal]}] else []);
      Some (prune explanations').
Proof. done. Qed.

(** *** Recursion bound *)

Lemma mapM_rec_mono rec rec' (atoms : list string) subs :
  (∀ b r, rec b = Some r → rec' b = Some r) →
  mapM rec atoms = Some subs → mapM rec' atoms = Some subs.
Proof.
  intros Hrec. rewrite !mapM_Some.
  induction 1; constructor; auto.
Qed.

Lemma derive_rec_mono rec rec' goal clauses explanations r :
  (∀ b r, rec b = Some r → rec' b = Some r) →
  derive rec goal clauses explanations = Some r →
  derive rec' goal clauses explanations = Some r.
Proof.
  intros Hrec. revert explanations.
  induction clauses as [|clause rest IH]; intros explanations; simpl; [done|].
  case_decide; [|by apply IH].
  destruct (mapM rec (body clause)) as [subs|] eqn:Hsubs; [|done].
  rewrite (mapM_rec_mono rec rec' _ subs Hrec Hsubs). simpl.
  case_decide; by apply IH.
Qed.

(** A result reached with some recursion bound is reached with any larger
    one. *)
Lemma abduce_fuel_mono (fuel extra : nat) goal kb abducibles seen r :
  abduce fuel goal kb abducibles seen = Some r →
  abduce (fuel + extra) goal kb abducibles seen = Some r.
Proof.
  revert goal seen r.
  induction fuel as [|fuel IH]; intros goal seen r; [done|].
  change (S fuel + extra) with (S (fuel + extra)). rewrite !abduce_unfold.
  case_decide; [done|].
  destruct (derive _ goal kb _) as [expls|] eqn:Hd; [|done].
  intros [= <-].
  erewrite derive_rec_mono; [done| |exact Hd].
  intros b r. apply IH.
Qed.

Lemma elem_of_body_atoms kb (b : string) :
  b ∈ body_atoms kb ↔ ∃ clause, clause ∈ kb ∧ b ∈ body clause.
Proof.
  unfold body_atoms. rewrite elem_of_union_list. split.
  - intros (X & (clause & -> & Hin)%list_elem_of_fmap & Hb).
    exists clause. by rewrite elem_of_list_to_set in Hb.
  - intros (clause & Hin & Hb). exists (list_to_set (body clause)).
    split; [|by apply elem_of_list_to_set].
    apply list_elem_of_fmap. by exists clause.
Qed.

Lemma derive_is_Some rec goal clauses explanations :
  (∀ clause b, clause ∈ clauses → b ∈ body clause → is_Some (rec b)) →
  is_Some (derive rec goal clauses explanations).
Proof.
  revert explanations.
  induction clauses as [|clause rest IH]; intros explanations Hrec; simpl; [done|].
  assert (Hrest : ∀ clause' b, clause' ∈ rest → b ∈ body clause' → is_Some (rec b))
    by (intros ????; eapply Hrec; [by right|done]).
  case_decide; [|by apply IH].
  destruct (mapM rec (body clause)) as [subs|] eqn:Hsubs.
  - simpl. case_decide; by apply IH.
  - apply mapM_None, Exists_exists in Hsubs as (b & Hb & Hnone).
    destruct (Hrec clause b) as [? ?]; [by left|done|congruence].
Qed.

(** Every recursive call is made on a body atom that is not yet in
    [seen], so the calls nest at most as deep as there are such atoms. *)
Lemma abduce_body_atom_is_Some (fuel : nat) goal kb abducibles seen :
  goal ∈ body_atoms kb →
  size (body_atoms kb ∖ seen) < fuel →
  is_Some (abduce fuel goal kb abducibles seen).
Proof.
  revert goal seen.
  induction fuel as [|fuel IH]; intros goal seen Hgoal Hsize; [lia|].
  rewrite abduce_unfold. case_decide as Hseen; [done|].
  match goal with |- is_Some (?d ≫= _) => destruct d as [expls|] eqn:Hd end;
    [done|].
  exfalso. apply (is_Some_None (A:=list (gset string))). rewrite <- Hd.
  apply derive_is_Some. intros clause b Hclause Hb. apply IH.
  - apply elem_of_body_atoms. by exists clause.
  - assert (body_atoms kb ∖ (seen ∪ {[goal]}) ⊂ body_atoms kb ∖ seen) as Hlt
      by set_solver.
    apply subset_size in Hlt. lia.
Qed.

(** [abduce] returns: [depth_bound kb] levels of recursion are enough for
    any goal and any guard set. *)
Lemma abduce_total (extra : nat) goal kb abducibles seen :
  is_Some (abduce (depth_bound kb + extra) goal kb abducibles seen).
Proof.
  unfold depth_bound.
  change (2 + size (body_atoms kb) + extra)
    with (S (S (size (body_atoms kb) + extra))).
  rewrite abduce_unfold. case_decide as Hseen; [done|].
  match goal with |- is_Some (?d ≫= _) => destruct d as [expls|] eqn:Hd end;
    [done|].
  exfalso. apply (is_Some_None (A:=list (gset string))). rewrite <- Hd.
  apply derive_is_Some. intros clause b Hclause Hb.
  apply abduce_body_atom_is_Some.
  - apply elem_of_body_atoms. by exists clause.
  - assert (size (body_atoms kb ∖ (seen ∪ {[goal]})) ≤ size (body_atoms kb))
      by (apply subseteq_size; set_solver).
    lia.
Qed.

(** *** Pruning *)

Lemma elem_of_prune (explanations : list (gset string)) (e : gset string) :
  e ∈ prune explanations ↔
  e ∈ explanations ∧ ∀ other, other ∈ explanations → ¬ other ⊂ e.
Proof.
  unfold prune. rewrite list_elem_of_filter, Exists_exists. naive_solver.
Qed.

Lemma prune_antichain (explanations : list (gset string)) (e1 e2 : gset string) :
  e1 ∈ prune explanations → e2 ∈ prune explanations → ¬ e1 ⊂ e2.
Proof.
  intros [He1 _]%elem_of_prune [_ Hmin]%elem_of_prune. by apply Hmin.
Qed.

Lemma abduce_is_pruned (fuel : nat) goal kb abducibles seen r :
  abduce fuel goal kb abducibles seen = Some r →
  ∃ explanations, r = prune explanations.
Proof.
  destruct fuel as [|fuel]; [done|]. rewrite abduce_unfold.
  case_decide; [intros [= <-]; by exists []|].
  destruct (derive _ goal kb _) as [expls|]; [|done].
  intros [= <-]. by exists expls.
Qed.

(** C7: [abduce] returns, and no explanation in the returned list is a
    strict subset of another one. *)
Theorem abduce_antichain (extra : nat) goal kb abducibles seen :
  ∃ r, abduce (depth_bound kb + extra) goal kb abducibles seen = Some r ∧
       ∀ e1 e2, e1 ∈ r → e2 ∈ r → ¬ e1 ⊂ e2.
Proof.
  destruct (abduce_total extra goal kb abducibles seen) as [r Hr].
  exists r. split; [done|].
  apply abduce_is_pruned in Hr as [explanations ->].
  intros e1 e2. apply prune_antichain.
Qed.

(** C6: on the example knowledge base with abducibles {s, t} the goal r
    has the explanations {t} and {s}, each once, and no other. *)
Theorem abduce_example (extra : nat) :
  abduce (depth_bound example_kb + extra) "r" example_kb example_abducibles ∅
    = Some [({["t"]} : gset string); {["s"]}] ∧
  [({["t"]} : gset string); {["s"]}] ≡ₚ [({["s"]} : gset string); {["t"]}].
Proof.
  split.
  - apply abduce_fuel_mono. vm_compute. reflexivity.
  - apply Permutation_swap.
Qed.

(** *** Facts *)

Lemma derive_extends rec goal clauses explanations r :
  derive rec goal clauses explanations = Some r →
  ∃ more, r = explanations ++ more.
Proof.
  revert explanations.
  induction clauses as [|clause rest IH]; intros explanations; simpl.
  - intros [= <-]. exists []. by rewrite app_nil_r.
  - case_decide; [|by apply IH].
    destruct (mapM rec (body clause)) as [subs|]; [|done]. simpl.
    case_decide; [by apply IH|].
    intros [more ->]%IH. eexists. by rewrite <- app_assoc.
Qed.

Lemma derive_fact rec goal clauses explanations r (clause : HornClause) :
  clause ∈ clauses → head clause = goal → body clause = [] →
  derive rec goal clauses explanations = Some r →
  ∅ ∈ r.
Proof.
  intros Hin Hhead Hbody. revert explanations.
  induction clauses as [|clause' rest IH]; intros explanations; simpl.
  { by apply elem_of_nil in Hin. }
  apply elem_of_cons in Hin as [<- | Hin].
  - rewrite decide_True by done. rewrite Hbody. simpl.
    intros [more ->]%derive_extends.
    rewrite !elem_of_app, list_elem_of_singleton. by auto.
  - case_decide; [|by apply IH].
    destruct (mapM rec (body clause')) as [subs|]; [|done]. simpl.
    case_decide; by apply IH.
Qed.

Lemma prune_with_empty (explanations : list (gset string)) :
  ∅ ∈ explanations →
  prune explanations ≠ [] ∧ ∀ e, e ∈ prune explanations → e = ∅.
Proof.
  intros Hin. split.
  - assert (∅ ∈ prune explanations) as Hp.
    { apply elem_of_prune. split; [done|]. intros other _. set_solver. }
    intros Heq. rewrite Heq in Hp. by apply elem_of_nil in Hp.
  - intros e [He Hmin]%elem_of_prune.
    destruct (decide (e = ∅)) as [|Hne]; [done|].
    destruct (Hmin ∅ Hin). set_solver.
Qed.

(** C10, as stated, fails: when the empty explanation is a candidate more
    than once (here from the fact q. and from q :- p. with the fact p.)
    the returned list holds it more than once. *)
Lemma abduce_fact_counterexample :
  let kb := [mkHornClause "q" []; mkHornClause "q" ["p"]; mkHornClause "p" []] in
  mkHornClause "q" [] ∈ kb ∧
  (∀ extra, abduce (depth_bound kb + extra) "q" kb ∅ ∅ = Some [∅; ∅]) ∧
  [(∅ : gset string); ∅] ≠ [∅].
Proof.
  intros kb. split; [by left|]. split; [|done].
  intros extra. apply abduce_fuel_mono. vm_compute. reflexivity.
Qed.

(** C10 (amended): for a goal that is the head of a clause with an empty
    body, [abduce] returns a non-empty list all of whose members are the
    empty explanation; so a goal that is a fact and an abducible is never
    explained by itself. *)
Theorem abduce_fact (extra : nat) goal kb abducibles (clause : HornClause) :
  clause ∈ kb → head clause = goal → body clause = [] →
  ∃ r, abduce (depth_bound kb + extra) goal kb abducibles ∅ = Some r ∧
       r ≠ [] ∧ (∀ e, e ∈ r → e = ∅) ∧ ({[goal]} : gset string) ∉ r.
Proof.
  intros Hin Hhead Hbody.
  destruct (abduce_total extra goal kb abducibles ∅) as [r Hr].
  exists r. split; [done|].
  unfold depth_bound in Hr.
  change (2 + size (body_atoms kb) + extra)
    with (S (S (size (body_atoms kb) + extra))) in Hr.
  rewrite abduce_unfold in Hr.
  rewrite decide_False in Hr by set_solver.
  destruct (derive _ goal kb _) as [expls|] eqn:Hd; [|done].
  injection Hr as <-.
  apply (derive_fact _ _ _ _ _ clause Hin Hhead Hbody) in Hd.
  destruct (prune_with_empty expls Hd) as [Hne Hall].
  split; [done|]. split; [done|].
  intros Hg%Hall. set_solver.
Qed.

Lemma abduce_fact_witness :
  let kb := [mkHornClause "q" []] in
  ∃ r, abduce (depth_bound kb + 0) "q" kb {["q"]} ∅ = Some r ∧
       r ≠ [] ∧ (∀ e, e ∈ r → e = ∅) ∧ ({["q"]} : gset string) ∉ r.
Proof.
  intros kb.
  apply (abduce_fact 0 "q" kb {["q"]} (mkHornClause "q" []));
    [by left | reflexivity | reflexivity].
Defined.
End abduce_facts.


(** ** FOIL rule induction *)

Section foil_facts.
Import Py Induction.

Context {F : Type} `{!FloatOps F}.

Lemma outcome_bind_Return {A B : Type} (a : A) (k : A → outcome B) :
  Return a ≫= k = k a.
Proof. done. Qed.

Lemma outcome_bind_Raise {A B : Type} (e : exn) (k : A → outcome B) :
  Raise e ≫= k = Raise e.
Proof. done. Qed.

Lemma truediv_zero (b : nat) : b ≠ 0 → truediv 0 b = Return 0%Qc.
Proof.
  intros Hb. unfold truediv. rewrite decide_False by done.
  change (Z.of_nat 0) with 0%Z. rewrite Z2Qc_inj_0.
  unfold Qcdiv. by rewrite Qcmult_0_l.
Qed.

Lemma truediv_pos (a b : nat) :
  a ≠ 0 → b ≠ 0 →
  ∃ q, truediv a b = Return q ∧ (0 < q)%Qc
       ∧ q = (Qc_of_Z (Z.of_nat a) / Qc_of_Z (Z.of_nat b))%Qc.
Proof.
  intros Ha Hb. unfold truediv. rewrite decide_False by done.
  eexists. split; [done|]. split; [|done].
  assert (Hpos : ∀ k : nat, k ≠ 0 → (0 < Qc_of_Z (Z.of_nat k))%Qc).
  { intros k Hk. rewrite <- Z2Qc_inj_0.
    apply (proj1 (Z2Qc_inj_lt 0 (Z.of_nat k))). lia. }
  unfold Qcdiv. apply Qcmult_pos_pos; [|apply Qcinv_pos]; by apply Hpos.
Qed.

Lemma math_log2_pos (x : Qc) :
  (0 < x)%Qc → math_log2 x = Return (f_log2 x).
Proof. intros Hx. unfold math_log2. by rewrite decide_True. Qed.

Lemma math_log2_zero : math_log2 0%Qc = Raise ValueError.
Proof.
  unfold math_log2. rewrite decide_False; [done|].
  apply Qcle_not_lt, Qcle_refl.
Qed.

(** The guard of [foil_gain]. *)
Lemma foil_gain_guard (p n p1 n1 : nat) :
  p = 0 ∨ p1 + n1 = 0 → foil_gain p n p1 n1 = Return f_zero.
Proof. intros Hg. unfold foil_gain. by rewrite decide_True. Qed.

(** Past the guard, with some positive still covered, both logarithms
    are taken of positive ratios. *)
Lemma foil_gain_positive (p n p1 n1 : nat) :
  p ≠ 0 → p1 ≠ 0 →
  foil_gain p n p1 n1 =
    Return (f_mul_int p1
              (f_sub (f_log2 (Qc_of_Z (Z.of_nat p1) / Qc_of_Z (Z.of_nat (p1 + n1))))
                     (f_log2 (Qc_of_Z (Z.of_nat p) / Qc_of_Z (Z.of_nat (p + n)))))).
Proof.
  intros Hp Hp1. unfold foil_gain. rewrite decide_False by lia.
  destruct (truediv_pos p1 (p1 + n1)) as (q1 & -> & Hq1 & <-); [lia..|].
  rewrite outcome_bind_Return, (math_log2_pos q1 Hq1), outcome_bind_Return.
  destruct (truediv_pos p (p + n)) as (q & -> & Hq & <-); [lia..|].
  by rewrite outcome_bind_Return, (math_log2_pos q Hq).
Qed.

(** Past the guard, a candidate that covers no positive but some negative
    sends zero to the first logarithm. *)
Lemma foil_gain_uncovered (p n n1 : nat) :
  foil_gain (S p) n 0 (S n1) = Raise ValueError.
Proof.
  unfold foil_gain. rewrite decide_False by lia.
  rewrite truediv_zero by lia.
  by rewrite outcome_bind_Return, math_log2_zero.
Qed.

(** [foil_gain] returns or raises [ValueError]; it never divides by
    zero. *)
Lemma foil_gain_cases (p n p1 n1 : nat) :
  (∃ gain, foil_gain p n p1 n1 = Return gain) ∨
  foil_gain p n p1 n1 = Raise ValueError.
Proof.
  destruct (decide (p = 0 ∨ p1 + n1 = 0)) as [Hg|Hg].
  { left. eexists. by apply foil_gain_guard. }
  destruct p1 as [|p1].
  - right. destruct p as [|p]; [lia|]. destruct n1 as [|n1]; [lia|].
    apply foil_gain_uncovered.
  - left. eexists. apply foil_gain_positive; lia.
Qed.

(** C2 (what the code does where the claim fails): the guard answers 0.0
    when [p = 0] or [p1 + n1 = 0], but it lets through [p1 = 0] with
    [n1 > 0]; there the first logarithm is taken of zero and [foil_gain]
    raises [ValueError], as on [foil_gain 3 2 0 2]. *)
Theorem foil_gain_log_of_zero :
  foil_gain 3 2 0 2 = Raise ValueError ∧
  ∀ p n p1 n1 : nat,
    foil_gain p n p1 n1 =
      if decide (p = 0 ∨ p1 + n1 = 0) then Return f_zero
      else if decide (p1 = 0) then Raise ValueError
      else Return (f_mul_int p1
             (f_sub (f_log2 (Qc_of_Z (Z.of_nat p1) / Qc_of_Z (Z.of_nat (p1 + n1))))
                    (f_log2 (Qc_of_Z (Z.of_nat p) / Qc_of_Z (Z.of_nat (p + n)))))).
Proof.
  split; [apply foil_gain_uncovered|].
  intros p n p1 n1. case_decide as Hg; [by apply foil_gain_guard|].
  case_decide as Hp1.
  - subst p1. destruct p as [|p]; [lia|]. destruct n1 as [|n1]; [lia|].
    apply foil_gain_uncovered.
  - apply foil_gain_positive; lia.
Qed.

Context `{!SetOrder}.

(** One candidate whose gain raises makes the whole selection loop
    raise, wherever it stands in the iteration order. *)
Lemma select_raises (background : gset (string * string))
    (candidates : list string) (pred : string)
    (pos_cover neg_cover : list (string * string)) (best : Best) :
  pred ∈ candidates →
  foil_gain (length pos_cover) (length neg_cover)
            (length (still_covered background pred pos_cover))
            (length (still_covered background pred neg_cover))
    = Raise ValueError →
  select background candidates pos_cover neg_cover best = Raise ValueError.
Proof.
  intros Hin Hraise. revert best.
  induction candidates as [|c candidates IH]; intros best.
  { by apply elem_of_nil in Hin. }
  simpl.
  destruct (foil_gain_cases (length pos_cover) (length neg_cover)
              (length (still_covered background c pos_cover))
              (length (still_covered background c neg_cover)))
    as [[gain Hgain] | Hgain]; rewrite Hgain; [|done].
  rewrite outcome_bind_Return.
  apply elem_of_cons in Hin as [-> | Hin]; [congruence|].
  destruct (f_gt gain (best_gain best)); by apply IH.
Qed.

(** An exception raised in the selection loop leaves [refine], and one
    raised in [refine] leaves the learner. *)
Lemma refine_raises (background : gset (string * string))
    (predicates : gset string) (fuel : nat) (body : list (string * string))
    (pos_cover neg_cover : list (string * string)) (e : exn) :
  neg_cover ≠ [] →
  select background (iter (predicates ∖ list_to_set (body.*1)))
         pos_cover neg_cover (mkBest f_zero None [] []) = Raise e →
  refine background predicates (S fuel) body pos_cover neg_cover = Raise e.
Proof.
  intros Hneg Hsel. cbn [refine]. rewrite decide_False by done.
  by rewrite Hsel.
Qed.

Lemma learn_loop_raises (neg_examples : list (string * string))
    (background : gset (string * string)) (predicates : gset string)
    (fuel : nat) (rules : list (string * string * list (string * string)))
    (first : string * string) (rest : list (string * string)) (e : exn) :
  refine background predicates (S fuel) []
         (filter (λ ex : string * string, ex.1 = first.1) (first :: rest))
         (filter (λ ex : string * string, ex.1 = first.1) neg_examples)
    = Raise e →
  learn_loop neg_examples background predicates (S fuel) rules (first :: rest)
    = Raise e.
Proof. intros Href. cbn [learn_loop]. cbv zeta. by rewrite Href. Qed.

(** C3 (what the code does on the example): the candidate Mammal covers
    none of the three positives and both negatives, its gain is
    [foil_gain 3 2 0 2], and the call raises [ValueError] in the first
    pass of the selection loop, whatever the iteration order of the
    predicate set and the float values. *)
Theorem learn_rules_example_raises (extra : nat) :
  learn_rules (S extra) example_pos example_neg
              example_background example_predicates
    = Raise ValueError.
Proof.
  unfold learn_rules. apply learn_loop_raises.
  assert (Hpos : filter (λ ex : string * string, ex.1 = "Fly") example_pos
                 = example_pos) by (vm_compute; reflexivity).
  assert (Hneg : filter (λ ex : string * string, ex.1 = "Fly") example_neg
                 = example_neg) by (vm_compute; reflexivity).
  change (filter _ (("Fly", "tweety") :: _))
    with (filter (λ ex : string * string, ex.1 = "Fly") example_pos).
  change (("Fly", "tweety").1) with "Fly".
  rewrite Hpos, Hneg.
  apply refine_raises; [done|].
  apply (select_raises example_background _ "Mammal").
  - apply iter_elem. vm_compute. reflexivity.
  - assert (Hp : still_covered example_background "Mammal" example_pos = [])
      by (vm_compute; reflexivity).
    assert (Hn : still_covered example_background "Mammal" example_neg
                 = example_neg) by (vm_compute; reflexivity).
    rewrite Hp, Hn. apply foil_gain_uncovered.
Qed.

Lemma iter_singleton (x : string) (s : gset string) :
  s = {[x]} → iter s = [x].
Proof.
  intros ->. pose proof (iter_NoDup {[x]}) as Hnd.
  assert (Hall : ∀ y, y ∈ iter {[x]} ↔ y = x)
    by (intros y; rewrite iter_elem; set_solver).
  destruct (iter {[x]}) as [|y l].
  - exfalso. apply (elem_of_nil x). by apply Hall.
  - assert (y = x) as -> by (apply Hall; by left).
    destruct l as [|z l]; [done|].
    assert (z = x) as -> by (apply Hall; right; by left).
    apply NoDup_cons in Hnd as [Hnin _]. exfalso. apply Hnin. by left.
Qed.

(** Without the candidate Mammal the defect is not reached: with Bird as
    the only predicate, and a float comparison that finds its gain
    positive, the learner returns the rule Fly(X) :- Bird(X). *)
Lemma learn_rules_bird_only (extra : nat) :
  (∀ gain, foil_gain 3 2 3 0 = Return gain → f_gt gain f_zero = true) →
  learn_rules (2 + extra) example_pos example_neg example_background {["Bird"]}
    = Return [("Fly", "X", [("Bird", "X")])].
Proof.
  intros Hgt. unfold learn_rules.
  change (2 + extra) with (S (S extra)). cbn [learn_loop example_pos]. cbv zeta.
  change (("Fly", "tweety").1) with "Fly".
  change (("Fly", "tweety") :: _) with example_pos.
  assert (Hpos : filter (λ ex : string * string, ex.1 = "Fly") example_pos
                 = example_pos) by (vm_compute; reflexivity).
  assert (Hneg : filter (λ ex : string * string, ex.1 = "Fly") example_neg
                 = example_neg) by (vm_compute; reflexivity).
  rewrite Hpos, Hneg. cbn [refine]. rewrite decide_False by done.
  rewrite (iter_singleton "Bird") by set_solver. cbn [select]. cbv zeta.
  assert (Hp : still_covered example_background "Bird" example_pos = example_pos)
    by (vm_compute; reflexivity).
  assert (Hn : still_covered example_background "Bird" example_neg = [])
    by (vm_compute; reflexivity).
  rewrite Hp, Hn. change (length example_pos) with 3.
  change (length example_neg) with 2. change (length []) with 0.
  destruct (foil_gain_cases 3 2 3 0) as [[gain Hgain] | Hgain].
  2: { rewrite foil_gain_positive in Hgain by lia. discriminate. }
  rewrite Hgain, outcome_bind_Return. cbn [best_gain].
  rewrite (Hgt gain Hgain), outcome_bind_Return.
  cbn [best_literal best_pos_cover best_neg_cover app].
  rewrite decide_True by done. rewrite outcome_bind_Return.
  assert (Hcov : filter (λ ex, ex ∉ filter
                   (rule_covers example_background "Fly" [("Bird", var)])
                   example_pos) example_pos = [])
    by (vm_compute; reflexivity).
  rewrite Hcov. destruct extra; reflexivity.
Qed.
End foil_facts.


(** * Further properties *)

(** ** Clause algebra, continued *)

Section clause_algebra_more.
Import Deduction.

Lemma negate_length (l : string) :
  String.length (negate l) = S (String.length l) ∨
  S (String.length (negate l)) = String.length l.
Proof.
  unfold negate. destruct (startswith l "~"%char) eqn:Hl.
  - right. destruct l as [|a rest]; [done|]. reflexivity.
  - by left.
Qed.

Lemma negate_neq (l : string) : negate l ≠ l.
Proof.
  intros Heq. destruct (negate_length l) as [H|H]; rewrite Heq in H; lia.
Qed.

(** X1: no literal is its own complement: [negate] adds or removes one
    negation marker, so it always changes the length of the string by
    exactly one. *)
Theorem negate_ne (l : string) :
  negate l ≠ l ∧
  (String.length (negate l) = S (String.length l) ∨
   S (String.length (negate l)) = String.length l).
Proof. split; [apply negate_neq | apply negate_length]. Qed.

Lemma negate_canonical (l : string) :
  canonical l = true → canonical (negate l) = true.
Proof.
  unfold canonical. destruct (startswith l "~"%char) eqn:Hl; simpl.
  - apply startswith_true in Hl. destruct l as [|a rest]; [done|].
    simpl in Hl. injection Hl as ->. rewrite negate_marked. simpl.
    intros Hr%negb_true_iff. by rewrite Hr.
  - intros _. rewrite (negate_plain l Hl). simpl. by rewrite Hl.
Qed.

Lemma negate_negate_canonical (l : string) :
  canonical l = true → negate (negate l) = l.
Proof.
  unfold canonical.
  destruct (startswith l "~"%char) eqn:Hl; simpl.
  - apply startswith_true in Hl. destruct l as [|a rest]; [done|].
    simpl in *. injection Hl as ->. rewrite negate_marked.
    intros Hr%negb_true_iff. by rewrite (negate_plain rest Hr).
  - intros _. by rewrite (negate_plain l Hl), negate_marked.
Qed.

(** X2: on literals in canonical form [negate] stays within canonical
    form and is injective. *)
Theorem negate_canonical_inj (l1 l2 : string) :
  canonical l1 = true → canonical l2 = true →
  canonical (negate l1) = true ∧ (negate l1 = negate l2 → l1 = l2).
Proof.
  intros H1 H2. split; [by apply negate_canonical|].
  intros Heq. rewrite <- (negate_negate_canonical l1 H1).
  rewrite <- (negate_negate_canonical l2 H2). by rewrite Heq.
Qed.

Lemma negate_canonical_inj_witness :
  canonical "~A" = true ∧ canonical "~A" = true ∧
  canonical (negate "~A") = true ∧ (negate "~A" = negate "~A" → "~A" = "~A").
Proof.
  split; [reflexivity|]. split; [reflexivity|].
  apply (negate_canonical_inj "~A" "~A"); reflexivity.
Defined.

Lemma resolve_loop_nil_iff (ci cj : gset string) (ls : list string) :
  resolve_loop ci cj ls = [] ↔ ∀ l, l ∈ ls → negate l ∉ cj.
Proof.
  induction ls as [|l0 ls IH]; simpl.
  - split; [by intros _ l ?%elem_of_nil | done].
  - case_decide as Hin.
    + split; [done|]. intros Hall. destruct (Hall l0); [by left|done].
    + rewrite IH. split.
      * intros Hall l [->|?]%elem_of_cons; auto.
      * intros Hall l ?. apply Hall. by right.
Qed.

(** X3: [resolve] returns the empty list exactly when no literal of [ci]
    has its negation in [cj]; in particular when either clause is empty. *)
Theorem resolve_nil_iff (ci cj : gset string) :
  (resolve ci cj = [] ↔ ∀ l, l ∈ ci → negate l ∉ cj) ∧
  resolve ∅ cj = [] ∧ resolve ci ∅ = [].
Proof.
  assert (Hiff : ∀ a b : gset string,
             resolve a b = [] ↔ ∀ l, l ∈ a → negate l ∉ b).
  { intros a b. unfold resolve. rewrite resolve_loop_nil_iff.
    by setoid_rewrite elem_of_elements. }
  split; [apply Hiff|]. split; apply Hiff; set_solver.
Qed.

Lemma length_resolve_loop (ci cj : gset string) (ls : list string) :
  length (resolve_loop ci cj ls) = length (filter (λ l, negate l ∈ cj) ls).
Proof.
  induction ls as [|l0 ls IH]; simpl; [done|].
  rewrite filter_cons. case_decide; simpl; by rewrite IH.
Qed.

(** X4: [resolve] returns one resolvent for every literal of [ci] whose
    negation is in [cj], without merging equal resolvents, and each
    resolvent has exactly two literals fewer than the union of the two
    clauses. *)
Theorem resolve_count_and_size (ci cj : gset string) :
  length (resolve ci cj) = size (filter (λ l, negate l ∈ cj) ci) ∧
  ∀ r, r ∈ resolve ci cj → size r + 2 = size (ci ∪ cj).
Proof.
  split.
  - unfold resolve. rewrite length_resolve_loop.
    unfold filter at 2, set_filter. rewrite size_list_to_set; [done|].
    apply NoDup_filter, NoDup_elements.
  - intros r (l & Hl & Hn & ->)%elem_of_resolve.
    assert (Hpair : size ({[l; negate l]} : gset string) = 2).
    { rewrite (size_union {[l]} {[negate l]}).
      - by rewrite !size_singleton.
      - pose proof (negate_neq l). set_solver. }
    assert ({[l; negate l]} ⊆ ci ∪ cj) as Hsub by set_solver.
    rewrite size_difference by done.
    apply subseteq_size in Hsub. rewrite Hpair in *. lia.
Qed.

(** X5: resolving is symmetric on clauses of canonical literals: a
    resolvent of [ci] with [cj] is also a resolvent of [cj] with [ci]. *)
Theorem resolve_symmetric (ci cj r : gset string) :
  (∀ l, l ∈ ci → canonical l = true) →
  r ∈ resolve ci cj → r ∈ resolve cj ci.
Proof.
  intros Hcan (l & Hl & Hn & ->)%elem_of_resolve.
  apply elem_of_resolve. exists (negate l). unfold resolvent_on.
  rewrite (negate_negate_canonical l (Hcan l Hl)).
  split; [done|]. split; [done|]. set_solver.
Qed.

Lemma resolve_symmetric_witness :
  (∀ l, l ∈ ({["A"; "B"]} : gset string) → canonical l = true) ∧
  ({["B"; "C"]} : gset string) ∈ resolve {["A"; "B"]} {["~A"; "C"]} ∧
  ({["B"; "C"]} : gset string) ∈ resolve {["~A"; "C"]} {["A"; "B"]}.
Proof.
  assert (Hcan : ∀ l, l ∈ ({["A"; "B"]} : gset string) → canonical l = true).
  { intros l [->%elem_of_singleton | ->%elem_of_singleton]%elem_of_union;
      reflexivity. }
  assert (Hin : ({["B"; "C"]} : gset string) ∈ resolve {["A"; "B"]} {["~A"; "C"]})
    by (vm_compute; left).
  split; [exact Hcan|]. split; [exact Hin|].
  exact (resolve_symmetric {["A"; "B"]} {["~A"; "C"]} {["B"; "C"]} Hcan Hin).
Defined.

Lemma literal_true_negate (v : string → bool) (l : string) :
  literal_true v (negate l) = negb (literal_true v l).
Proof.
  unfold negate. destruct (startswith l "~"%char) eqn:Hl.
  - destruct l as [|a rest]; [done|]. simpl in *. rewrite Hl.
    by rewrite negb_involutive.
  - done.
Qed.

(** X6: one resolution step on two clauses that hold no literal with its
    complement is sound: a valuation that makes both clauses true makes
    every resolvent true. *)
Theorem resolve_step_sound (v : string → bool) (ci cj r : gset string) :
  complement_free ci → complement_free cj →
  clause_true v ci → clause_true v cj →
  r ∈ resolve ci cj → clause_true v r.
Proof.
  intros Hfi Hfj (l1 & Hl1 & Ht1) (l2 & Hl2 & Ht2)
         (l & Hl & Hn & ->)%elem_of_resolve.
  destruct (literal_true v l) eqn:Hv.
  - exists l2. split; [|done].
    assert (l2 ≠ negate l).
    { intros ->. rewrite literal_true_negate, Hv in Ht2. done. }
    assert (l2 ≠ l).
    { intros ->. by apply (Hfj l). }
    set_solver.
  - exists l1. split; [|done].
    assert (l1 ≠ l) by (intros ->; congruence).
    assert (l1 ≠ negate l).
    { intros ->. by apply (Hfi l). }
    set_solver.
Qed.

Lemma resolve_step_sound_witness :
  clause_true (λ _, true) ({["B"; "C"]} : gset string).
Proof.
  apply (resolve_step_sound (λ _, true) {["A"; "B"]} {["~A"; "C"]} {["B"; "C"]}).
  - intros l [->%elem_of_singleton | ->%elem_of_singleton]%elem_of_union;
      vm_compute; set_solver.
  - intros l [->%elem_of_singleton | ->%elem_of_singleton]%elem_of_union;
      vm_compute; set_solver.
  - exists "A". split; [set_solver | reflexivity].
  - exists "C". split; [set_solver | reflexivity].
  - vm_compute. left.
Defined.
End clause_algebra_more.

(** ** Resolution entailment, continued *)

Section resolution_more.
Import Deduction.

Lemma resolution_first_round (fuel : nat) (clauses : gset (gset string))
    (ci cj : gset string) (l : string) :
  ci ∈ clauses → cj ∈ clauses → ci ≠ cj →
  l ∈ ci → negate l ∈ cj → ci ∪ cj = {[l; negate l]} →
  resolution_loop (S fuel) clauses ∅ = Some true.
Proof.
  intros Hci Hcj Hne Hl Hn Hunion. rewrite resolution_loop_step.
  rewrite decide_True; [done|].
  apply elem_of_round. exists ci, cj. repeat (split; [done|]).
  apply elem_of_resolve. exists l. unfold resolvent_on.
  repeat (split; [done|]). rewrite Hunion. set_solver.
Qed.

(** X7: with an empty knowledge base no query is entailed: the single
    clause of the negated query has no partner and the first round answers
    false. *)
Theorem resolution_entails_empty_kb (fuel : nat) (query : string) :
  resolution_entails (S fuel) ∅ query = Some false.
Proof.
  unfold resolution_entails. rewrite resolution_loop_step.
  assert (Hnone : ∀ r, r ∉ round_resolvents
            (pairs (∅ ∪ {[ {[negate query]} ]} : gset (gset string)))).
  { intros r (ci & cj & Hi & Hj & Hne & _)%elem_of_round. set_solver. }
  rewrite decide_False by apply Hnone. cbv zeta.
  rewrite decide_True; [done|].
  intros r [Hr%elem_of_list_to_set | Hr]%elem_of_union; [|set_solver].
  by apply Hnone in Hr.
Qed.

(** X8: a query that is itself a unit clause of the knowledge base is
    entailed, in the first round. *)
Theorem resolution_entails_unit (fuel : nat) (kb : gset (gset string))
    (query : string) :
  {[ query ]} ∈ kb → resolution_entails (S fuel) kb query = Some true.
Proof.
  intros Hin. unfold resolution_entails.
  apply (resolution_first_round fuel _ {[query]} {[negate query]} query);
    try set_solver.
  intros Heq. pose proof (negate_neq query).
  assert (negate query ∈ ({[query]} : gset string)) by (rewrite Heq; set_solver).
  set_solver.
Qed.

Lemma resolution_entails_unit_witness :
  resolution_entails 1 {[ {["A"]}; {["B"; "C"]} ]} "A" = Some true.
Proof.
  apply (resolution_entails_unit 0 {[ {["A"]}; {["B"; "C"]} ]} "A").
  set_solver.
Defined.

(** X9: a knowledge base that holds a unit clause {l} beside the
    tautology {l, negate l} makes every query come out entailed: resolving
    the two on [l] removes both literals of the union and leaves the empty
    clause. *)
Theorem resolution_entails_unit_and_tautology (fuel : nat)
    (kb : gset (gset string)) (l query : string) :
  {[ l ]} ∈ kb → {[ l; negate l ]} ∈ kb →
  resolution_entails (S fuel) kb query = Some true.
Proof.
  intros Hunit Htaut. unfold resolution_entails.
  apply (resolution_first_round fuel _ {[l]} {[l; negate l]} l);
    try set_solver.
  intros Heq. pose proof (negate_neq l).
  assert (negate l ∈ ({[l]} : gset string)) by (rewrite Heq; set_solver).
  set_solver.
Qed.

Lemma resolution_entails_unit_and_tautology_witness :
  resolution_entails 1 {[ {["A"]}; {["A"; "~A"]} ]} "B" = Some true.
Proof.
  apply (resolution_entails_unit_and_tautology 0
           {[ {["A"]}; {["A"; "~A"]} ]} "A" "B"); set_solver.
Defined.

(** *** Termination *)

Lemma elem_of_subsets_of (ls : list string) (c : gset string) :
  c ⊆ list_to_set ls → c ∈ subsets_of ls.
Proof.
  revert c. induction ls as [|x ls IH]; intros c Hc; simpl in *.
  - assert (c = ∅) as -> by set_solver. set_solver.
  - apply elem_of_union. destruct (decide (x ∈ c)) as [Hx|Hx].
    + right. apply elem_of_map. exists (c ∖ {[x]}). split.
      * apply set_eq. intros y. destruct (decide (y = x)); set_solver.
      * apply IH. set_solver.
    + left. apply IH. set_solver.
Qed.

Lemma not_subseteq_elem (X Y : gset (gset string)) :
  X ⊈ Y → ∃ x, x ∈ X ∧ x ∉ Y.
Proof.
  intros Hsub.
  destruct (decide (Forall (λ x, x ∈ Y) (elements X))) as [Hall|Hex].
  - destruct Hsub. intros x Hx%elem_of_elements.
    by eapply Forall_forall in Hall.
  - apply not_Forall_Exists in Hex; [|apply _].
    apply Exists_exists in Hex as (x & Hx%elem_of_elements & Hnot).
    by exists x.
Qed.

Lemma round_within (L : gset string) (clauses : gset (gset string))
    (r : gset string) :
  (∀ c, c ∈ clauses → c ⊆ L) →
  r ∈ round_resolvents (pairs clauses) → r ⊆ L.
Proof.
  intros Hall (ci & cj & Hi & Hj & _ & Hr)%elem_of_round.
  apply elem_of_resolve in Hr as (l & _ & _ & ->).
  apply Hall in Hi, Hj. set_solver.
Qed.

Lemma resolution_loop_terminates (L : gset string) (fuel : nat)
    (clauses new : gset (gset string)) :
  (∀ c, c ∈ clauses → c ⊆ L) → (∀ c, c ∈ new → c ⊆ L) →
  size (subsets_of (elements L) ∖ clauses) < fuel →
  is_Some (resolution_loop fuel clauses new).
Proof.
  revert clauses new.
  induction fuel as [|fuel IH]; intros clauses new Hc Hn Hsize; [lia|].
  rewrite resolution_loop_step. case_decide; [done|]. cbv zeta.
  case_decide as Hsat; [done|].
  assert (Hnew' : ∀ c, c ∈ list_to_set (round_resolvents (pairs clauses)) ∪ new
                       → c ⊆ L).
  { intros c [Hr%elem_of_list_to_set | ?]%elem_of_union; [|by apply Hn].
    exact (round_within L clauses c Hc Hr). }
  apply IH.
  - intros c [?|?]%elem_of_union; auto.
  - done.
  - apply not_subseteq_elem in Hsat as (x & Hx & Hnx).
    assert (x ∈ subsets_of (elements L)).
    { apply elem_of_subsets_of. rewrite list_to_set_elements_L. by apply Hnew'. }
    assert (subsets_of (elements L) ∖
              (clauses ∪ (list_to_set (round_resolvents (pairs clauses)) ∪ new))
            ⊂ subsets_of (elements L) ∖ clauses) as Hlt%subset_size
      by set_solver.
    lia.
Qed.

Lemma size_list_to_set_le (l : list (gset string)) :
  size (list_to_set l : gset (gset string)) ≤ length l.
Proof.
  induction l as [|x l IH].
  { by rewrite list_to_set_nil, size_empty. }
  rewrite list_to_set_cons, size_union_alt, size_singleton.
  assert (size (list_to_set l ∖ {[x]} : gset (gset string))
          ≤ size (list_to_set l : gset (gset string)))
    by (apply subseteq_size; set_solver).
  cbn [length]. lia.
Qed.

Lemma size_subsets_of (ls : list string) :
  size (subsets_of ls) ≤ 2 ^ length ls.
Proof.
  induction ls as [|x ls IH]; cbn [subsets_of length].
  { by rewrite size_singleton. }
  rewrite size_union_alt, Nat.pow_succ_r'.
  assert (size (set_map (D:=gset (gset string))
                  (λ c : gset string, {[x]} ∪ c) (subsets_of ls)
                ∖ subsets_of ls)
          ≤ size (subsets_of ls)); [|lia].
  etrans; [apply subseteq_size, subseteq_difference_l; reflexivity|].
  unfold set_map. etrans; [apply size_list_to_set_le|].
  by rewrite length_fmap.
Qed.

Lemma elem_of_literals (clauses : gset (gset string)) (c : gset string) :
  c ∈ clauses → c ⊆ literals clauses.
Proof.
  intros Hc l Hl. unfold literals. apply elem_of_union_list.
  exists c. by rewrite elem_of_elements.
Qed.

(** X10: [resolution_entails] always answers: every resolvent is written
    with literals of the initial clauses, each round that does not answer
    adds a clause, so [rounds_bound kb query] rounds are enough, which is
    at most one more than two to the number of those literals. *)
Theorem resolution_entails_terminates (extra : nat) (kb : gset (gset string))
    (query : string) :
  is_Some (resolution_entails (rounds_bound kb query + extra) kb query) ∧
  rounds_bound kb query ≤ S (2 ^ size (literals (kb ∪ {[ {[negate query]} ]}))).
Proof.
  split; [|apply le_n_S, size_subsets_of].
  unfold resolution_entails, rounds_bound.
  apply (resolution_loop_terminates (literals (kb ∪ {[ {[negate query]} ]}))).
  - apply elem_of_literals.
  - set_solver.
  - assert (size (subsets_of (elements (literals (kb ∪ {[ {[negate query]} ]})))
                  ∖ (kb ∪ {[ {[negate query]} ]}))
            ≤ size (subsets_of (elements (literals (kb ∪ {[ {[negate query]} ]})))))
      by (apply subseteq_size; set_solver).
    lia.
Qed.
End resolution_more.

(** ** Horn abduction, continued *)

Section abduce_more.
Import Abduction.

Implicit Types (kb clauses : list HornClause) (goal : string).
Implicit Types (abducibles seen : gset string).
Implicit Types (rec : string → option (list (gset string))).

Lemma elem_of_product {A : Type} (lists : list (list A)) (combo : list A) :
  combo ∈ product lists ↔ Forall2 (∈) combo lists.
Proof.
  revert combo. induction lists as [|xs lists IH]; intros combo; simpl.
  - rewrite list_elem_of_singleton. split; [by intros -> | by inv 1].
  - rewrite list_elem_of_bind. split.
    + intros (x & (rest & ->%list_elem_of_singleton & Hrest)%list_elem_of_bind & Hx).
      constructor; [done|]. by apply IH.
    + inv 1 as [|x ? rest ? Hx Hrest]. exists x. split; [|done].
      apply list_elem_of_bind. exists rest.
      split; [by apply list_elem_of_singleton | by apply IH].
Qed.

(** Where a candidate explanation of [derive] comes from: it was already
    there, or it merges one explanation per body atom of a clause for the
    goal. *)
Lemma derive_elem rec goal clauses explanations r (e : gset string) :
  derive rec goal clauses explanations = Some r → e ∈ r →
  e ∈ explanations ∨
  ∃ clause sub_expls combo,
    clause ∈ clauses ∧ head clause = goal ∧
    mapM rec (body clause) = Some sub_expls ∧
    Forall2 (∈) combo sub_expls ∧ e = merge combo.
Proof.
  revert explanations.
  induction clauses as [|clause rest IH]; intros explanations; simpl.
  { intros [= <-]. by left. }
  assert (Hrest : ∀ acc, derive rec goal rest acc = Some r → e ∈ r →
            e ∈ acc ∨ ∃ clause' sub_expls combo,
              clause' ∈ clause :: rest ∧ head clause' = goal ∧
              mapM rec (body clause') = Some sub_expls ∧
              Forall2 (∈) combo sub_expls ∧ e = merge combo).
  { intros acc Hd He. destruct (IH acc Hd He) as [?|(c & sub & combo & ? & ?)];
      [by left|]. right. exists c, sub, combo. split; [by right|done]. }
  case_decide as Hhead; [|by apply Hrest].
  destruct (mapM rec (body clause)) as [subs|] eqn:Hsubs; [|done]. simpl.
  case_decide; [by apply Hrest|].
  intros Hd He. destruct (Hrest _ Hd He) as [Hin|?]; [|by right].
  apply elem_of_app in Hin as [?|Hin]; [by left|]. right.
  apply list_elem_of_fmap in Hin as (combo & -> & Hcombo%elem_of_product).
  exists clause, subs, combo. split; [by left|done].
Qed.

(** Each body atom of the clause has supplied one member of [combo]. *)
Lemma combo_covers_body rec (atoms : list string)
    (sub_expls : list (list (gset string))) (combo : list (gset string)) :
  mapM rec atoms = Some sub_expls → Forall2 (∈) combo sub_expls →
  Forall (λ b, ∃ exs c, rec b = Some exs ∧ c ∈ exs ∧ c ∈ combo) atoms.
Proof.
  rewrite mapM_Some. intros Hrec. revert combo.
  induction Hrec as [|b exs atoms subs Hb _ IH]; intros combo Hcombo.
  - constructor.
  - inv Hcombo as [|c ? rest ? Hc Hrest]. constructor.
    + exists exs, c. split; [done|]. split; [done|by left].
    + eapply Forall_impl; [by apply IH|]. simpl.
      intros b' (exs' & c' & ? & ? & ?). exists exs', c'.
      split; [done|]. split; [done|by right].
Qed.

Lemma combo_from_body rec (atoms : list string)
    (sub_expls : list (list (gset string))) (combo : list (gset string)) :
  mapM rec atoms = Some sub_expls → Forall2 (∈) combo sub_expls →
  Forall (λ c, ∃ b exs, b ∈ atoms ∧ rec b = Some exs ∧ c ∈ exs) combo.
Proof.
  rewrite mapM_Some. intros Hrec. revert combo.
  induction Hrec as [|b exs atoms subs Hb _ IH]; intros combo Hcombo.
  - inv Hcombo. constructor.
  - inv Hcombo as [|c ? rest ? Hc Hrest]. constructor.
    + exists b, exs. split; [by left|done].
    + eapply Forall_impl; [by apply IH|]. simpl.
      intros c' (b' & exs' & ? & ? & ?). exists b', exs'.
      split; [by right|done].
Qed.

Lemma elem_of_merge (combo : list (gset string)) (a : string) :
  a ∈ merge combo ↔ ∃ c, c ∈ combo ∧ a ∈ c.
Proof. apply elem_of_union_list. Qed.

(** X11: every explanation [abduce] returns is made of abducibles
    only. *)
Theorem abduce_within_abducibles (fuel : nat) goal kb abducibles seen
    (r : list (gset string)) (e : gset string) :
  abduce fuel goal kb abducibles seen = Some r → e ∈ r → e ⊆ abducibles.
Proof.
  revert goal seen r e.
  induction fuel as [|fuel IH]; intros goal seen r e; [done|].
  rewrite abduce_unfold. case_decide; [by intros [= <-] ?%elem_of_nil|].
  destruct (derive _ goal kb _) as [expls|] eqn:Hd; [|done].
  intros [= <-] [He _]%elem_of_prune.
  destruct (derive_elem _ _ _ _ _ e Hd He)
    as [Hin | (clause & subs & combo & _ & _ & Hsubs & Hcombo & ->)].
  - case_decide; [|by apply elem_of_nil in Hin].
    apply list_elem_of_singleton in Hin as ->. set_solver.
  - intros a (c & Hc & Ha)%elem_of_merge.
    pose proof (combo_from_body _ _ _ _ Hsubs Hcombo) as Hall.
    eapply Forall_forall in Hall as (b & exs & _ & Hrec & Hcexs); [|exact Hc].
    by apply (IH _ _ _ c Hrec Hcexs).
Qed.

Lemma abduce_within_abducibles_witness :
  ({["t"]} : gset string) ⊆ example_abducibles.
Proof.
  apply (abduce_within_abducibles 3 "r" example_kb example_abducibles ∅
           [{["t"]}; {["s"]}] {["t"]}).
  - vm_compute. reflexivity.
  - by left.
Defined.

Lemma derivable_mono (depth : nat) kb (e1 e2 : gset string) (atom : string) :
  e1 ⊆ e2 → derivable depth kb e1 atom → derivable depth kb e2 atom.
Proof.
  intros Hsub. revert atom.
  induction depth as [|depth IH]; intros atom; simpl.
  - intros [?|[]]. left. by apply Hsub.
  - intros [?|(clause & ? & ? & Hbody)]; [left; by apply Hsub|].
    right. exists clause. split; [done|]. split; [done|].
    eapply Forall_impl; [exact Hbody|]. apply IH.
Qed.

(** X12: every explanation [abduce] returns does explain the goal: with
    its atoms assumed, the goal follows from the clauses of the knowledge
    base by forward chaining. *)
Theorem abduce_explains (fuel : nat) goal kb abducibles seen
    (r : list (gset string)) (e : gset string) :
  abduce fuel goal kb abducibles seen = Some r → e ∈ r →
  derivable fuel kb e goal.
Proof.
  revert goal seen r e.
  induction fuel as [|fuel IH]; intros goal seen r e; [done|].
  rewrite abduce_unfold. case_decide; [by intros [= <-] ?%elem_of_nil|].
  destruct (derive _ goal kb _) as [expls|] eqn:Hd; [|done].
  intros [= <-] [He _]%elem_of_prune.
  destruct (derive_elem _ _ _ _ _ e Hd He)
    as [Hin | (clause & subs & combo & Hclause & Hhead & Hsubs & Hcombo & ->)].
  - case_decide; [|by apply elem_of_nil in Hin].
    apply list_elem_of_singleton in Hin as ->. left. set_solver.
  - right. exists clause. split; [done|]. split; [done|].
    pose proof (combo_covers_body _ _ _ _ Hsubs Hcombo) as Hall.
    eapply Forall_impl; [exact Hall|]. simpl.
    intros b (exs & c & Hrec & Hcexs & Hc).
    apply (derivable_mono _ _ c); [|by eapply IH].
    intros a Ha. apply elem_of_merge. by exists c.
Qed.

Lemma abduce_explains_witness :
  derivable 3 example_kb {["t"]} "r".
Proof.
  apply (abduce_explains 3 "r" example_kb example_abducibles ∅
           [{["t"]}; {["s"]}] {["t"]}).
  - vm_compute. reflexivity.
  - by left.
Defined.

Lemma derive_no_head rec goal clauses explanations :
  (∀ clause, clause ∈ clauses → head clause ≠ goal) →
  derive rec goal clauses explanations = Some explanations.
Proof.
  induction clauses as [|clause rest IH]; intros Hno; simpl; [done|].
  rewrite decide_False by (apply Hno; by left).
  apply IH. intros c Hc. apply Hno. by right.
Qed.

Lemma prune_nil : prune [] = [].
Proof. done. Qed.

Lemma prune_singleton (e : gset string) : prune [e] = [e].
Proof.
  unfold prune. rewrite filter_cons, decide_True; [done|].
  intros [Hsub | []%Exists_nil]%Exists_cons. set_solver.
Qed.

(** X13: a goal that heads no clause has the single explanation {goal}
    when it is abducible and no explanation at all when it is not. *)
Theorem abduce_no_clause (fuel : nat) goal kb abducibles seen :
  (∀ clause, clause ∈ kb → head clause ≠ goal) → goal ∉ seen →
  abduce (S fuel) goal kb abducibles seen
    = Some (if decide (goal ∈ abducibles) then [{[goal]}] else []).
Proof.
  intros Hno Hseen. rewrite abduce_unfold, decide_False by done.
  rewrite derive_no_head by done. simpl.
  case_decide; by rewrite ?prune_singleton, ?prune_nil.
Qed.

Lemma abduce_no_clause_witness :
  abduce 1 "s" example_kb example_abducibles ∅
    = Some (if decide ("s" ∈ example_abducibles) then [{["s"]}] else []).
Proof.
  apply (abduce_no_clause 0 "s" example_kb example_abducibles ∅).
  - intros clause Hin. repeat (apply elem_of_cons in Hin as [-> | Hin]; [done|]).
    by apply elem_of_nil in Hin.
  - set_solver.
Defined.

(** Pruning never drops a candidate without keeping one that is included
    in it. *)
Lemma prune_keeps_lower (explanations : list (gset string)) (e : gset string) :
  e ∈ explanations → ∃ m, m ∈ prune explanations ∧ m ⊆ e.
Proof.
  remember (size e) as n eqn:Hn. revert e Hn.
  induction n as [n IH] using lt_wf_ind. intros e -> He.
  destruct (decide (Exists (λ other, other ⊂ e) explanations)) as [Hex|Hmin].
  - apply Exists_exists in Hex as (other & Hother & Hlt).
    destruct (IH (size other) (subset_size _ _ Hlt) other eq_refl Hother)
      as (m & Hm & Hsub).
    exists m. split; [done|]. set_solver.
  - exists e. split; [|done]. apply elem_of_prune. split; [done|].
    intros other Hother Hlt. apply Hmin, Exists_exists. by exists other.
Qed.

(** X14: an abducible goal is never left unexplained: the result holds
    {goal} itself, or the empty explanation when the goal also follows
    from facts alone. *)
Theorem abduce_abducible (extra : nat) goal kb abducibles :
  goal ∈ abducibles →
  ∃ r, abduce (depth_bound kb + extra) goal kb abducibles ∅ = Some r ∧
       (({[goal]} : gset string) ∈ r ∨ (∅ : gset string) ∈ r).
Proof.
  intros Habd.
  destruct (abduce_total extra goal kb abducibles ∅) as [r Hr].
  exists r. split; [done|].
  unfold depth_bound in Hr.
  change (2 + size (body_atoms kb) + extra)
    with (S (S (size (body_atoms kb) + extra))) in Hr.
  rewrite abduce_unfold in Hr. rewrite decide_False in Hr by set_solver.
  destruct (derive _ goal kb _) as [expls|] eqn:Hd; [|done].
  injection Hr as <-. rewrite decide_True in Hd by done.
  apply derive_extends in Hd as [more ->].
  destruct (prune_keeps_lower ([{[goal]}] ++ more) {[goal]}) as (m & Hm & Hsub).
  { apply elem_of_app. left. by left. }
  destruct (decide (goal ∈ m)) as [Hin|Hnin].
  - left. assert (m = {[goal]}) as Heq.
    { apply set_eq. intros a. set_solver. }
    by subst m.
  - right. assert (m = ∅) as Heq.
    { apply set_eq. intros a. set_solver. }
    by subst m.
Qed.

Lemma abduce_abducible_witness :
  ∃ r, abduce (depth_bound example_kb + 0) "s" example_kb example_abducibles ∅
         = Some r ∧
       (({["s"]} : gset string) ∈ r ∨ (∅ : gset string) ∈ r).
Proof.
  apply (abduce_abducible 0 "s" example_kb example_abducibles). set_solver.
Defined.

Lemma derive_self_recursive rec goal clauses explanations r :
  (∀ clause, clause ∈ clauses → head clause = goal → goal ∈ body clause) →
  (∀ exs, rec goal = Some exs → exs = []) →
  derive rec goal clauses explanations = Some r → r = explanations.
Proof.
  intros Hself Hrec. revert explanations.
  induction clauses as [|clause rest IH]; intros explanations; simpl.
  { by intros [= <-]. }
  assert (Hrest : ∀ c, c ∈ rest → head c = goal → goal ∈ body c)
    by (intros c ?; apply Hself; by right).
  case_decide as Hhead; [|by apply IH].
  destruct (mapM rec (body clause)) as [subs|] eqn:Hsubs; [|done]. simpl.
  rewrite decide_True; [by apply IH|].
  apply mapM_Some in Hsubs.
  assert (Hgoal : goal ∈ body clause) by (apply Hself; [by left|done]).
  clear -Hsubs Hgoal Hrec. induction Hsubs as [|b exs atoms subs Hb _ IHs].
  { by apply elem_of_nil in Hgoal. }
  apply elem_of_cons in Hgoal as [<- | Hgoal].
  - apply Exists_cons_hd. by rewrite (Hrec exs Hb).
  - apply Exists_cons_tl. by apply IHs.
Qed.

(** X20: the cycle guard makes a clause that has its own head in its body
    contribute nothing: a goal that is not abducible and whose clauses all
    mention it in their body has no explanation, and the call returns. *)
Theorem abduce_self_recursive (extra : nat) goal kb abducibles :
  goal ∉ abducibles →
  (∀ clause, clause ∈ kb → head clause = goal → goal ∈ body clause) →
  abduce (depth_bound kb + extra) goal kb abducibles ∅ = Some [].
Proof.
  intros Habd Hself.
  destruct (abduce_total extra goal kb abducibles ∅) as [r Hr].
  rewrite Hr. f_equal. unfold depth_bound in Hr.
  change (2 + size (body_atoms kb) + extra)
    with (S (S (size (body_atoms kb) + extra))) in Hr.
  rewrite abduce_unfold in Hr. rewrite decide_False in Hr by set_solver.
  destruct (derive _ goal kb _) as [expls|] eqn:Hd; [|done].
  injection Hr as <-. rewrite decide_False in Hd by done.
  apply derive_self_recursive in Hd as ->; [done|done|].
  intros exs. rewrite abduce_unfold, decide_True by set_solver. by intros [= <-].
Qed.

Lemma abduce_self_recursive_witness :
  let kb := [mkHornClause "p" ["q"; "p"]; mkHornClause "q" []] in
  abduce (depth_bound kb + 0) "p" kb {["s"]} ∅ = Some [].
Proof.
  intros kb. apply (abduce_self_recursive 0 "p" kb {["s"]}).
  - set_solver.
  - intros clause Hin Hhead.
    repeat (apply elem_of_cons in Hin as [-> | Hin]); simpl in *;
      [set_solver | done | by apply elem_of_nil in Hin].
Defined.
End abduce_more.


(** ** FOIL rule induction, continued *)

Section foil_more.
Import Py Induction.

Context {F : Type} `{!FloatOps F} `{!SetOrder}.

Implicit Types (background : gset (string * string)) (predicates : gset string).
Implicit Types (body : list (string * string)).
Implicit Types (pos_cover neg_cover : list (string * string)).

(** The selection loop returns the incoming choice or a candidate with the
    examples it keeps, or it raises [ValueError]. *)
Lemma select_cases background (candidates : list string) pos_cover neg_cover
    (best : Best) :
  (∃ best', select background candidates pos_cover neg_cover best = Return best' ∧
     (best' = best ∨
      ∃ pred gain, pred ∈ candidates ∧
        best' = mkBest gain (Some (pred, var))
                  (still_covered background pred pos_cover)
                  (still_covered background pred neg_cover))) ∨
  select background candidates pos_cover neg_cover best = Raise ValueError.
Proof.
  revert best. induction candidates as [|c candidates IH]; intros best.
  { left. exists best. by split; [|left]. }
  cbn [select]. cbv zeta.
  destruct (foil_gain_cases (length pos_cover) (length neg_cover)
              (length (still_covered background c pos_cover))
              (length (still_covered background c neg_cover)))
    as [[gain Hgain] | Hgain]; rewrite Hgain; [|by right].
  rewrite outcome_bind_Return.
  destruct (f_gt gain (best_gain best)).
  - destruct (IH (mkBest gain (Some (c, var))
                    (still_covered background c pos_cover)
                    (still_covered background c neg_cover)))
      as [(best' & -> & [-> | (pred & g & Hin & ->)]) | ->]; [| |by right].
    + left. eexists. split; [done|]. right. exists c, gain.
      split; [by left|done].
    + left. eexists. split; [done|]. right. exists pred, g.
      split; [by right|done].
  - destruct (IH best) as [(best' & -> & [-> | (pred & g & Hin & ->)]) | ->];
      [| |by right].
    + left. eexists. split; [done|]. by left.
    + left. eexists. split; [done|]. right. exists pred, g.
      split; [by right|done].
Qed.

Lemma refine_unfold background predicates (fuel : nat) body pos_cover neg_cover :
  refine background predicates (S fuel) body pos_cover neg_cover =
    if decide (neg_cover = []) then Return body
    else
      best ← select background (iter (predicates ∖ list_to_set (body.*1)))
                    pos_cover neg_cover (mkBest f_zero None [] []);
      match best_literal best with
      | None => Return body
      | Some literal =>
          refine background predicates fuel (body ++ [literal])
                 (best_pos_cover best) (best_neg_cover best)
      end.
Proof. done. Qed.

(** One pass of the [while neg_cover] loop: it stops, it raises
    [ValueError], or it goes on with one more literal, on a predicate not
    used before, and with the examples that literal keeps. *)
Lemma refine_step background predicates (fuel : nat) body pos_cover neg_cover :
  refine background predicates (S fuel) body pos_cover neg_cover = Return body ∨
  refine background predicates (S fuel) body pos_cover neg_cover = Raise ValueError ∨
  ∃ pred, pred ∈ predicates ∧ (pred ∉ body.*1) ∧
    refine background predicates (S fuel) body pos_cover neg_cover =
      refine background predicates fuel (body ++ [(pred, var)])
             (still_covered background pred pos_cover)
             (still_covered background pred neg_cover).
Proof.
  rewrite refine_unfold. case_decide; [by left|].
  destruct (select_cases background (iter (predicates ∖ list_to_set (body.*1)))
              pos_cover neg_cover (mkBest f_zero None [] []))
    as [(best' & -> & [-> | (pred & g & Hin & ->)]) | ->].
  - by left.
  - right. right. apply iter_elem in Hin. exists pred.
    split; [set_solver|]. split; [set_solver|]. done.
  - right. by left.
Qed.

Lemma body_ok_snoc predicates body (pred : string) :
  body_ok predicates body → pred ∈ predicates → pred ∉ body.*1 →
  body_ok predicates (body ++ [(pred, var)]).
Proof.
  intros [Hnd Hall] Hp Hfresh. split.
  - rewrite fmap_app. apply NoDup_app. split; [done|]. split.
    + intros x Hx Hin. cbn [fmap list_fmap fst] in Hin.
      apply list_elem_of_singleton in Hin as ->. done.
    + apply NoDup_singleton.
  - intros lit [Hlit | Hlit]%elem_of_app; [by apply Hall|].
    apply list_elem_of_singleton in Hlit as ->. done.
Qed.

Lemma refine_body_ok background predicates (fuel : nat) body pos_cover neg_cover
    (body' : list (string * string)) :
  body_ok predicates body →
  refine background predicates fuel body pos_cover neg_cover = Return body' →
  body_ok predicates body'.
Proof.
  revert body pos_cover neg_cover.
  induction fuel as [|fuel IH]; intros body pos_cover neg_cover Hok; [done|].
  destruct (refine_step background predicates fuel body pos_cover neg_cover)
    as [-> | [-> | (pred & Hp & Hfresh & ->)]].
  - by intros [= <-].
  - done.
  - apply IH. by apply body_ok_snoc.
Qed.

Lemma refine_raises_only background predicates (fuel : nat) body
    pos_cover neg_cover :
  refine background predicates fuel body pos_cover neg_cover
    ≠ Raise ZeroDivisionError.
Proof.
  revert body pos_cover neg_cover.
  induction fuel as [|fuel IH]; intros body pos_cover neg_cover; [done|].
  destruct (refine_step background predicates fuel body pos_cover neg_cover)
    as [-> | [-> | (pred & _ & _ & ->)]]; [done|done|apply IH].
Qed.

Lemma refine_fuel_enough background predicates (fuel : nat) body
    pos_cover neg_cover :
  size (predicates ∖ list_to_set (body.*1)) < fuel →
  refine background predicates fuel body pos_cover neg_cover ≠ OutOfFuel.
Proof.
  revert body pos_cover neg_cover.
  induction fuel as [|fuel IH]; intros body pos_cover neg_cover Hsize; [lia|].
  destruct (refine_step background predicates fuel body pos_cover neg_cover)
    as [-> | [-> | (pred & Hp & Hfresh & ->)]]; [done|done|].
  apply IH. rewrite fmap_app, list_to_set_app_L.
  assert (predicates ∖ (list_to_set (body.*1) ∪ list_to_set ([(pred, var)].*1))
          ⊂ predicates ∖ list_to_set (body.*1)) as Hlt%subset_size.
  { assert (pred ∉ (list_to_set (body.*1) : gset string))
      by (by rewrite elem_of_list_to_set).
    simpl. set_solver. }
  lia.
Qed.

(** X16: the literal-selection loop of one rule makes at most one pass
    more than there are predicates: started on the empty body with a
    larger bound it returns a body or raises, it never runs out. *)
Theorem refine_terminates background predicates (extra : nat)
    pos_cover neg_cover :
  refine background predicates (S (size predicates) + extra) []
         pos_cover neg_cover ≠ OutOfFuel.
Proof.
  apply refine_fuel_enough.
  assert (size (predicates ∖ list_to_set ([] : list (string * string)).*1)
          ≤ size predicates) by (apply subseteq_size; set_solver).
  lia.
Qed.

Lemma learn_loop_unfold (neg_examples : list (string * string)) background
    predicates (fuel : nat)
    (rules : list (string * string * list (string * string)))
    (first : string * string) (rest : list (string * string)) :
  learn_loop neg_examples background predicates (S fuel) rules (first :: rest) =
    body ← refine background predicates (S fuel) []
              (filter (λ e : string * string, e.1 = first.1) (first :: rest))
              (filter (λ e : string * string, e.1 = first.1) neg_examples);
    learn_loop neg_examples background predicates fuel
      (rules ++ [(first.1, var, body)])
      (filter (λ e, e ∉ filter (rule_covers background first.1 body)
                                (first :: rest))
              (first :: rest)).
Proof. done. Qed.

Lemma body_ok_nil predicates : body_ok predicates [].
Proof.
  split; [apply NoDup_nil_2 | by intros lit ?%elem_of_nil].
Qed.

Lemma learn_loop_invariant (neg_examples : list (string * string)) background
    predicates (fuel : nat)
    (rules : list (string * string * list (string * string)))
    (pos_examples : list (string * string))
    (P : string * string * list (string * string) → Prop) :
  (∀ h body, (∃ e, e ∈ pos_examples ∧ e.1 = h) → body_ok predicates body →
             P (h, var, body)) →
  Forall P rules →
  match learn_loop neg_examples background predicates fuel rules pos_examples with
  | Return rules' => Forall P rules'
  | Raise e => e = ValueError
  | OutOfFuel => True
  end.
Proof.
  revert rules pos_examples.
  induction fuel as [|fuel IH]; intros rules pos_examples HP Hrules; [done|].
  destruct pos_examples as [|first rest]; [done|].
  rewrite learn_loop_unfold.
  destruct (refine background predicates (S fuel) [] _ _) as [body|e|] eqn:Href;
    [| |done].
  - rewrite outcome_bind_Return. apply IH.
    + intros h body' (e & [_ He]%list_elem_of_filter & Hh) Hok.
      apply HP; [|done]. by exists e.
    + apply Forall_app. split; [done|]. apply Forall_singleton.
      apply HP; [exists first; split; [by left|done]|].
      eapply refine_body_ok; [apply body_ok_nil | exact Href].
  - rewrite outcome_bind_Raise. destruct e; [done|].
    by apply refine_raises_only in Href.
Qed.

(** X17: when [learn_rules] returns, every rule has for head the predicate
    of one of the positive examples, the variable X, and a body of
    literals on X over distinct predicates of the given set. *)
Theorem learn_rules_well_formed (fuel : nat) (pos neg : list (string * string))
    background predicates :
  match learn_rules fuel pos neg background predicates with
  | Return rules =>
      Forall (λ rule : string * string * list (string * string),
                (∃ e, e ∈ pos ∧ e.1 = rule.1.1) ∧ rule.1.2 = "X" ∧
                body_ok predicates rule.2) rules
  | _ => True
  end.
Proof.
  unfold learn_rules.
  pose proof (learn_loop_invariant neg background predicates fuel [] pos
    (λ rule, (∃ e, e ∈ pos ∧ e.1 = rule.1.1) ∧ rule.1.2 = "X" ∧
             body_ok predicates rule.2)) as Hinv.
  destruct (learn_loop neg background predicates fuel [] pos); [|done..].
  apply Hinv; [|constructor]. intros h body Hhead Hok. done.
Qed.

(** X18: the only exception [learn_rules] raises is the [ValueError] of
    [math.log2]; no division in it is ever by zero. *)
Theorem learn_rules_raises_only (fuel : nat) (pos neg : list (string * string))
    background predicates :
  learn_rules fuel pos neg background predicates ≠ Raise ZeroDivisionError.
Proof.
  unfold learn_rules.
  pose proof (learn_loop_invariant neg background predicates fuel [] pos
    (λ _, True)) as Hinv.
  destruct (learn_loop neg background predicates fuel [] pos) as [|e|];
    [done| |done].
  intros [= ->]. by discriminate Hinv.
Qed.

(** X21: building a rule raises [ValueError] as soon as the first pass of
    the selection loop meets a candidate predicate that holds of none of
    the positive examples of the head predicate but of some negative
    one. *)
Theorem learn_rules_value_error (fuel : nat) (first : string * string)
    (rest neg : list (string * string)) background predicates (pred : string) :
  pred ∈ predicates →
  still_covered background pred
    (filter (λ e : string * string, e.1 = first.1) (first :: rest)) = [] →
  still_covered background pred
    (filter (λ e : string * string, e.1 = first.1) neg) ≠ [] →
  learn_rules (S fuel) (first :: rest) neg background predicates
    = Raise ValueError.
Proof.
  intros Hpred Hpos Hneg. unfold learn_rules.
  apply learn_loop_raises, refine_raises.
  { intros Heq. rewrite Heq in Hneg. by destruct Hneg. }
  apply (select_raises background _ pred).
  { apply iter_elem. set_solver. }
  rewrite Hpos.
  destruct (still_covered background pred
              (filter (λ ex : string * string, ex.1 = first.1) neg))
    as [|e es]; [done|].
  rewrite filter_cons, decide_True by done. apply foil_gain_uncovered.
Qed.


Lemma iter_empty : iter ∅ = [].
Proof.
  destruct (iter ∅) as [|x l] eqn:Heq; [done|].
  assert (x ∈ iter ∅) as Hin%iter_elem by (rewrite Heq; by left).
  set_solver.
Qed.

Lemma filter_all {A : Type} (P : A → Prop) `{!∀ x, Decision (P x)} (l : list A) :
  Forall P l → filter P l = l.
Proof.
  induction 1 as [|x l Hx _ IH]; [done|].
  by rewrite filter_cons, decide_True, IH.
Qed.

Lemma filter_none {A : Type} (P : A → Prop) `{!∀ x, Decision (P x)} (l : list A) :
  Forall (λ x, ¬ P x) l → filter P l = [].
Proof.
  induction 1 as [|x l Hx _ IH]; [done|].
  by rewrite filter_cons, decide_False.
Qed.

(** The first rule when its body comes out empty: it covers every positive
    example of the one head predicate and the learner stops there. *)
Lemma learn_loop_empty_body (neg_examples : list (string * string)) background
    predicates (extra : nat) (h c0 : string) (cs : list string) :
  refine background predicates (S (S extra)) []
         ((h, c0) :: ((h ,.) <$> cs))
         (filter (λ e : string * string, e.1 = h) neg_examples) = Return [] →
  learn_loop neg_examples background predicates (S (S extra)) []
             ((h, c0) :: ((h ,.) <$> cs))
    = Return [(h, "X", [])].
Proof.
  intros Href. rewrite learn_loop_unfold. cbn [fst].
  assert (Hall : Forall (λ e : string * string, e.1 = h)
                        ((h, c0) :: ((h ,.) <$> cs))).
  { constructor; [done|]. apply Forall_fmap, Forall_true. done. }
  rewrite (filter_all _ _ Hall), Href, outcome_bind_Return.
  rewrite (filter_all (rule_covers background h [])).
  - rewrite filter_none; [done|].
    apply Forall_forall. intros e He Hne. done.
  - eapply Forall_impl; [exact Hall|]. intros e He. split; [done|constructor].
Qed.

(** X19: without negative examples the learner returns the single rule
    with an empty body for the head predicate of the positives, and it
    does the same, whatever the negatives, when it is given no predicate
    to build a body from. *)
Theorem learn_rules_empty_body (extra : nat) (h c0 : string) (cs : list string)
    (neg : list (string * string)) background predicates :
  learn_rules (2 + extra) ((h, c0) :: ((h ,.) <$> cs)) [] background predicates
    = Return [(h, "X", [])] ∧
  learn_rules (2 + extra) ((h, c0) :: ((h ,.) <$> cs)) neg background ∅
    = Return [(h, "X", [])].
Proof.
  unfold learn_rules. change (2 + extra) with (S (S extra)).
  split; apply learn_loop_empty_body; rewrite refine_unfold.
  - done.
  - case_decide; [done|].
    replace (∅ ∖ list_to_set ([] : list (string * string)).*1)
      with (∅ : gset string) by set_solver.
    by rewrite iter_empty.
Qed.
End foil_more.

Lemma learn_rules_value_error_witness :
  @Induction.learn_rules unit
    (Induction.Build_FloatOps unit () (λ _, ()) (λ _ _, ()) (λ _ _, ()) (λ _ _, false))
    Induction.elements_order
    1 [("Fly", "tweety")] [("Fly", "leo")] {[ ("Mammal", "leo") ]} {["Mammal"]}
  = Py.Raise Py.ValueError.
Proof.
  apply (@learn_rules_value_error unit
           (Induction.Build_FloatOps unit () (λ _, ()) (λ _ _, ()) (λ _ _, ()) (λ _ _, false))
           Induction.elements_order
           0 ("Fly", "tweety") [] [("Fly", "leo")]
           {[ ("Mammal", "leo") ]} {["Mammal"]} "Mammal").
  - set_solver.
  - vm_compute. reflexivity.
  - vm_compute. discriminate.
Defined.

(** * The cost-minimising wrapper *)

(** ** Binary64 comparison and addition *)

Section spec_float_facts.
Import SpecFloat MinCost.






(** *** Rounding keeps the sign *)









End spec_float_facts.

Section prim_float_facts.
Import PrimFloat FloatAxioms FloatOps SpecFloat MinCost.










End prim_float_facts.

(** ** Totals, the least total and the returned list *)

Section min_cost_facts.
Import Py Abduction PrimFloat FloatAxioms FloatOps SpecFloat MinCost.

Context `{!Induction.SetOrder}.

Implicit Types (cost : gmap string float) (x y z : float).

(** *** Sums *)







(** *** The order of nonnegative floats *)










(** *** The builtin [min] *)



(** *** The wrapper *)




End min_cost_facts.

(** The wrapper reads the iteration order of the sets only through the
    totals of the explanations. *)
Lemma abduce_min_cost_order (o1 o2 : Induction.SetOrder) (fuel : nat)
    (goal : string) (kb : list Abduction.HornClause) (abducibles : gset string)
    (cost : gmap string PrimFloat.float) (all_expls : list (gset string)) :
  Abduction.abduce fuel goal kb abducibles ∅ = Some all_expls →
  Forall (λ e, @MinCost.total_cost o1 cost e = @MinCost.total_cost o2 cost e)
         all_expls →
  @MinCost.abduce_min_cost o1 fuel goal kb abducibles cost
  = @MinCost.abduce_min_cost o2 fuel goal kb abducibles cost.
Proof.
  intros Hall Hsame. unfold MinCost.abduce_min_cost. rewrite Hall. cbv zeta.
  assert (Heq : (λ expl, (@MinCost.total_cost o1 cost expl, expl)) <$> all_expls
              = (λ expl, (@MinCost.total_cost o2 cost expl, expl)) <$> all_expls).
  { apply list_eq_Forall2, Forall2_fmap, Forall_Forall2_diag.
    eapply Forall_impl; [exact Hsame|]. by intros e ->. }
  by rewrite Heq.
Qed.

Lemma total_cost_singleton (o : Induction.SetOrder)
    (cost : gmap string PrimFloat.float) (a : string) :
  @MinCost.total_cost o cost {[a]} = MinCost.py_sum [MinCost.cost_get cost a].
Proof.
  unfold MinCost.total_cost. by rewrite (iter_singleton a {[a]}).
Qed.

(** The example block: with the costs s: 5.0, t: 1.0 the cheapest
    explanation of r is {t} alone; with equal costs both explanations are
    returned. This holds for every iteration order. *)
Lemma abduce_min_cost_examples (o : Induction.SetOrder) (extra : nat) :
  @MinCost.abduce_min_cost o (Abduction.depth_bound Abduction.example_kb + extra)
     "r" Abduction.example_kb Abduction.example_abducibles MinCost.example_cost
    = Py.Return [{["t"]}] ∧
  @MinCost.abduce_min_cost o (Abduction.depth_bound Abduction.example_kb + extra)
     "r" Abduction.example_kb Abduction.example_abducibles MinCost.tie_cost
    = Py.Return [{["t"]}; {["s"]}].
Proof.
  assert (Hall : Abduction.abduce (Abduction.depth_bound Abduction.example_kb + extra)
            "r" Abduction.example_kb Abduction.example_abducibles ∅
          = Some [({["t"]} : gset string); {["s"]}]).
  { apply abduce_fuel_mono. vm_compute. reflexivity. }
  assert (Hsame : ∀ cost, Forall
            (λ e, @MinCost.total_cost o cost e
                  = @MinCost.total_cost Induction.elements_order cost e)
            [({["t"]} : gset string); {["s"]}]).
  { intros cost. repeat constructor; by rewrite !total_cost_singleton. }
  split.
  - rewrite (abduce_min_cost_order o Induction.elements_order _ _ _ _ _ _
               Hall (Hsame _)).
    unfold MinCost.abduce_min_cost. rewrite Hall. vm_compute. reflexivity.
  - rewrite (abduce_min_cost_order o Induction.elements_order _ _ _ _ _ _
               Hall (Hsame _)).
    unfold MinCost.abduce_min_cost. rewrite Hall. vm_compute. reflexivity.
Qed.




